(** * ASCII-map path walker: a shallow embedding of [index.ts] and [utils.ts]

    The program walks a grid of strings from the start marker to the end
    marker, collecting letters and the characters it crosses.  Grids are
    [string[][]]; positions and directions are [{row, col}] objects with
    integer fields; errors are thrown with fixed messages.  The embedding
    keeps the grid as a list of rows of strings, integers as [Z], the thrown
    errors as an outcome type, and the unbounded [while (true)] loop as a
    fuelled recursion. *)

From Stdlib Require Import ZArith List String Ascii Bool Lia ListSet.
Import ListNotations.

Local Open Scope string_scope.
Local Open Scope list_scope.
Local Open Scope Z_scope.

(** ** Data model *)

Module KEY_CHARACTERS.
(** Modelled from the spec: [enums.ts] is not among the sources.  The
    spec fixes the five literals: start [@], end [x], horizontal [-],
    vertical [|] and turn [+]. *)
Definition STARTING_CHAR : string := "@".
Definition ENDING_CHAR : string := "x".
Definition MINUS_CHAR : string := "-".
Definition VERTICAL_CHAR : string := "|".
Definition CHANGE_DIRECTION_CHAR : string := "+".
End KEY_CHARACTERS.
Import KEY_CHARACTERS.

(** Modelled from the spec: [types.ts] is not among the sources.  A position
    is an integer pair (row index, column index); a direction is a vector
    with the same two fields, so both are the one structural type. *)
Record Position : Type := mkPosition { row : Z; col : Z }.
Definition Direction : Type := Position.

Definition Grid : Type := list (list string).

(** The blank cell of the fixture maps (the empty string). *)
Definition blank : string := EmptyString.

Record Result : Type := mkResult { letters : string; path : string }.

(** The five messages the program throws. *)
Inductive Error : Type :=
| StartEndError
| StartingPathError
| InvalidStartError
| OneDirectionError
| BrokenPathError.

Definition errorMessage (e : Error) : string :=
  match e with
  | StartEndError =>
      ("The map must contain exactly one start '" ++ STARTING_CHAR
         ++ "' and one end '" ++ ENDING_CHAR ++ "'.")%string
  | StartingPathError => "The map must contain exactly one starting path."
  | InvalidStartError => "Invalid starting position or map."
  | OneDirectionError => "The map must have only one valid direction."
  | BrokenPathError => "Path is broken or invalid."
  end.

(** What a call does: it returns a value, throws one of the errors, or
    performs an indexing [grid[row][col]] that finds no cell.  JavaScript
    answers the last with [undefined] or a [TypeError]; the embedding stops
    there with [Absent]. *)
Inductive Outcome (A : Type) : Type :=
| Return (a : A)
| Throw (e : Error)
| Absent.
Arguments Return {A} a.
Arguments Throw {A} e.
Arguments Absent {A}.

Definition bind {A B : Type} (m : Outcome A) (k : A -> Outcome B) : Outcome B :=
  match m with
  | Return a => k a
  | Throw e => Throw e
  | Absent => Absent
  end.

Notation "x <- m ;; k" := (bind m (fun x => k))
  (at level 61, m at next level, right associativity).

(** ** Grid primitives ([utils.ts]) *)

Definition nthZ {A : Type} (l : list A) (i : Z) : option A :=
  if i <? 0 then None else nth_error l (Z.to_nat i).

(** [grid[p.row][p.col]] as an optional read. *)
Definition cell (grid : Grid) (p : Position) : option string :=
  match nthZ grid (row p) with
  | Some r => nthZ r (col p)
  | None => None
  end.

Definition readCell (grid : Grid) (p : Position) : Outcome string :=
  match cell grid p with
  | Some c => Return c
  | None => Absent
  end.

Definition DIRECTIONS : list Direction :=
  [ mkPosition (-1) 0;   (* Up *)
    mkPosition 1 0;      (* Down *)
    mkPosition 0 (-1);   (* Left *)
    mkPosition 0 1 ].    (* Right *)

Definition filterDirections (currentDirection : Direction) : list Direction :=
  filter (fun direction =>
            if row currentDirection =? 0
            then negb (row direction =? 0)
            else row direction =? 0)
         DIRECTIONS.

Fixpoint findInRow (r : list string) (char : string) (c : Z) : option Z :=
  match r with
  | [] => None
  | s :: r' => if String.eqb s char then Some c else findInRow r' char (c + 1)
  end.

Fixpoint findPositionFrom (grid : Grid) (char : string) (r : Z) : option Position :=
  match grid with
  | [] => None
  | line :: grid' =>
      match findInRow line char 0 with
      | Some c => Some (mkPosition r c)
      | None => findPositionFrom grid' char (r + 1)
      end
  end.

Definition findPosition (grid : Grid) (char : string) : option Position :=
  findPositionFrom grid char 0.

Definition isWithinBounds (grid : Grid) (position : Position) : bool :=
  (row position >=? 0) && (row position <? Z.of_nat (List.length grid))
  && (col position >=? 0)
  && match nthZ grid (row position) with
     | Some r => col position <? Z.of_nat (List.length r)
     | None => false
     end.

Definition isPathCharacter (char : string) : bool :=
  String.eqb char MINUS_CHAR || String.eqb char VERTICAL_CHAR
  || String.eqb char CHANGE_DIRECTION_CHAR.

(** [/[...]/.test(s)]: some character of [s] lies in the class. *)
Fixpoint regexTest (cls : ascii -> bool) (s : string) : bool :=
  match s with
  | EmptyString => false
  | String a s' => cls a || regexTest cls s'
  end.

Definition upperClass (a : ascii) : bool :=
  ((65 <=? nat_of_ascii a) && (nat_of_ascii a <=? 90))%nat.

Definition upperOrXClass (a : ascii) : bool :=
  upperClass a || Ascii.eqb a "x"%char.

(** [/[A-Z]/.test(s)] *)
Definition testUpper (s : string) : bool := regexTest upperClass s.

(** [/[A-Zx]/.test(s)] *)
Definition testUpperOrX (s : string) : bool := regexTest upperOrXClass s.

(** The test [isPathCharacter(nextChar) || /[A-Zx]/.test(nextChar)] that the
    source writes out at each of its five uses. *)
Definition isWalkable (nextChar : string) : bool :=
  isPathCharacter nextChar || testUpperOrX nextChar.

Definition move (position : Position) (direction : Direction) : Position :=
  mkPosition (row position + row direction) (col position + col direction).

(** The loop of [haveOneValidDirection] over the filtered directions. *)
Fixpoint countValidDirections (grid : Grid) (position : Position)
         (dirs : list Direction) (validDirections : Z) : Outcome Z :=
  match dirs with
  | [] => Return validDirections
  | direction :: rest =>
      let newPosition :=
        mkPosition (row position + row direction) (col position + col direction) in
      if isWithinBounds grid newPosition then
        nextChar <- readCell grid newPosition ;;
        if isWalkable nextChar
        then countValidDirections grid position rest (validDirections + 1)
        else countValidDirections grid position rest validDirections
      else countValidDirections grid position rest validDirections
  end.

Definition haveOneValidDirection (grid : Grid) (position : Position)
           (currentDirection : Direction) : Outcome bool :=
  here <- readCell grid position ;;
  if negb (String.eqb here CHANGE_DIRECTION_CHAR) then Return false
  else
    validDirections <-
      countValidDirections grid position (filterDirections currentDirection) 0 ;;
    if validDirections >? 1 then Throw OneDirectionError else Return true.

Definition isLocationAlreadyUsed (location : list Position)
           (currentPosition : Position) : bool :=
  existsb (fun value =>
             (col value =? col currentPosition) && (row value =? row currentPosition))
          location.

(** [hasMultipleOccurrences] keeps a [Set<string>] of what it has met; a
    row scan either returns [true] from the function ([None]) or goes on
    with the set it has ([Some]). *)
Fixpoint scanRow (r : list string) (target : string) (occurrences : set string)
  : option (set string) :=
  match r with
  | [] => Some occurrences
  | s :: r' =>
      if String.eqb s target then
        if set_mem string_dec target occurrences then None
        else scanRow r' target (set_add string_dec target occurrences)
      else scanRow r' target occurrences
  end.

Fixpoint scanRows (grid : Grid) (target : string) (occurrences : set string) : bool :=
  match grid with
  | [] => false
  | r :: grid' =>
      match scanRow r target occurrences with
      | None => true
      | Some occurrences' => scanRows grid' target occurrences'
      end
  end.

Definition hasMultipleOccurrences (grid : Grid) (target : string) : bool :=
  scanRows grid target (empty_set string).

(** ** The walker ([index.ts]) *)

(** The loop of [findInitialDirection] over [DIRECTIONS]. *)
Fixpoint collectValidDirections (grid : Grid) (start : Position)
         (dirs : list Direction) (validDirections : list Direction)
  : Outcome (list Direction) :=
  match dirs with
  | [] => Return validDirections
  | dir :: rest =>
      let potentialPosition := move start dir in
      if isWithinBounds grid potentialPosition then
        nextChar <- readCell grid potentialPosition ;;
        if isWalkable nextChar
        then collectValidDirections grid start rest (validDirections ++ [dir])
        else collectValidDirections grid start rest validDirections
      else collectValidDirections grid start rest validDirections
  end.

Definition findInitialDirection (grid : Grid) (start : Position)
  : Outcome (option Direction) :=
  validDirections <- collectValidDirections grid start DIRECTIONS [] ;;
  match validDirections with
  | [d] => Return (Some d)
  | _ => Throw StartingPathError
  end.

(** The [for] loop over [filterDirections(currentDirection)] that
    [findNextPosition] has twice, word for word: at a turn and at a letter.
    Running off the end of the list falls through to [return null]. *)
Fixpoint tryDirections (grid : Grid) (currentPosition : Position)
         (currentDirection : Direction) (dirs : list Direction)
  : Outcome (option (Position * Direction)) :=
  match dirs with
  | [] => Return None
  | dir :: rest =>
      let potentialPosition := move currentPosition dir in
      if isWithinBounds grid potentialPosition then
        nextChar <- readCell grid potentialPosition ;;
        if (negb (row dir =? - row currentDirection)
            || negb (col dir =? - col currentDirection))
           && isWalkable nextChar
        then Return (Some (potentialPosition, dir))
        else tryDirections grid currentPosition currentDirection rest
      else tryDirections grid currentPosition currentDirection rest
  end.

Definition findNextPosition (grid : Grid) (currentPosition : Position)
           (currentDirection : Direction)
  : Outcome (option (Position * Direction)) :=
  currentChar <- readCell grid currentPosition ;;
  atTurn <- (if String.eqb currentChar CHANGE_DIRECTION_CHAR
             then haveOneValidDirection grid currentPosition currentDirection
             else Return false) ;;
  if atTurn : bool then
    tryDirections grid currentPosition currentDirection
                  (filterDirections currentDirection)
  else
    let potentialPosition := move currentPosition currentDirection in
    if isWithinBounds grid potentialPosition then
      nextChar <- readCell grid potentialPosition ;;
      if isWalkable nextChar
      then Return (Some (potentialPosition, currentDirection))
      else Return None
    else if testUpper currentChar then
      tryDirections grid currentPosition currentDirection
                    (filterDirections currentDirection)
    else Return None.

(** [Array.prototype.join] with the empty separator. *)
Definition join (l : list string) : string := String.concat EmptyString l.

Definition samePosition (p q : Position) : bool :=
  (row p =? row q) && (col p =? col q).

(** The [while (true)] loop.  [None] means the fuel ran out with the loop
    still running.  The three arrays are lists here, so [push] always finds
    room: this is the loop for as long as the engine's arrays have room.
    [walkLoopWithin] below is the same loop with the failure of [push] on a
    full array written out. *)
Fixpoint walkLoop (fuel : nat) (grid : Grid) (endPos : Position)
         (currentPosition : Position) (direction : Direction)
         (path letters : list string) (location : list Position)
  : option (Outcome Result) :=
  match fuel with
  | O => None
  | S fuel' =>
      match readCell grid currentPosition with
      | Absent => Some Absent
      | Throw e => Some (Throw e)
      | Return currentChar =>
          let path := path ++ [currentChar] in
          let collect :=
            testUpper currentChar
            && negb (isLocationAlreadyUsed location currentPosition) in
          let letters := if collect then letters ++ [currentChar] else letters in
          let location := if collect then location ++ [currentPosition] else location in
          if samePosition currentPosition endPos then
            Some (Return (mkResult (join letters) (join path)))
          else
            match findNextPosition grid currentPosition direction with
            | Absent => Some Absent
            | Throw e => Some (Throw e)
            | Return None => Some (Throw BrokenPathError)
            | Return (Some (nextPosition, newDirection)) =>
                walkLoop fuel' grid endPos nextPosition newDirection
                         path letters location
            end
      end
  end.

Definition collectLettersAndPath (fuel : nat) (grid : Grid)
  : option (Outcome Result) :=
  let start := findPosition grid STARTING_CHAR in
  let endPos := findPosition grid ENDING_CHAR in
  let haveMultipleStart := hasMultipleOccurrences grid STARTING_CHAR in
  match start, endPos with
  | Some start, Some endPos =>
      if haveMultipleStart then Some (Throw StartEndError)
      else
        match findInitialDirection grid start with
        | Absent => Some Absent
        | Throw e => Some (Throw e)
        | Return None => Some (Throw InvalidStartError)
        | Return (Some direction) =>
            walkLoop fuel grid endPos (move start direction) direction
                     [STARTING_CHAR] [] []
        end
  | _, _ => Some (Throw StartEndError)
  end.

(** ** The walker with the array limit of the engine *)

(** How a call ends: by the code itself (a result, one of its errors, an
    absent read), or by the engine, which throws [RangeError] when [push]
    is called on an array that already holds as many elements as the engine
    allows. *)
Inductive Ending : Type :=
| Ends (o : Outcome Result)
| RangeError.

(** The [while (true)] loop again, with [capacity] the number of elements
    the engine lets an array hold (it is not fixed by the language below
    2^32 - 1 and is a parameter here).  Each of [path.push], [letters.push]
    and [location.push] throws [RangeError] on a full array; the rest is
    [walkLoop] line by line.  The one-element start of [path] and the at
    most four entries of [validDirections] are taken to fit. *)
Fixpoint walkLoopWithin (capacity fuel : nat) (grid : Grid) (endPos : Position)
         (currentPosition : Position) (direction : Direction)
         (path letters : list string) (location : list Position)
  : option Ending :=
  match fuel with
  | O => None
  | S fuel' =>
      match readCell grid currentPosition with
      | Absent => Some (Ends Absent)
      | Throw e => Some (Ends (Throw e))
      | Return currentChar =>
          if (capacity <=? List.length path)%nat then Some RangeError
          else
            let path := path ++ [currentChar] in
            let collect :=
              testUpper currentChar
              && negb (isLocationAlreadyUsed location currentPosition) in
            if collect && ((capacity <=? List.length letters)%nat
                           || (capacity <=? List.length location)%nat)
            then Some RangeError
            else
              let letters := if collect then letters ++ [currentChar] else letters in
              let location :=
                if collect then location ++ [currentPosition] else location in
              if samePosition currentPosition endPos then
                Some (Ends (Return (mkResult (join letters) (join path))))
              else
                match findNextPosition grid currentPosition direction with
                | Absent => Some (Ends Absent)
                | Throw e => Some (Ends (Throw e))
                | Return None => Some (Ends (Throw BrokenPathError))
                | Return (Some (nextPosition, newDirection)) =>
                    walkLoopWithin capacity fuel' grid endPos
                                   nextPosition newDirection
                                   path letters location
                end
      end
  end.

Definition collectLettersAndPathWithin (capacity fuel : nat) (grid : Grid)
  : option Ending :=
  let start := findPosition grid STARTING_CHAR in
  let endPos := findPosition grid ENDING_CHAR in
  let haveMultipleStart := hasMultipleOccurrences grid STARTING_CHAR in
  match start, endPos with
  | Some start, Some endPos =>
      if haveMultipleStart then Some (Ends (Throw StartEndError))
      else
        match findInitialDirection grid start with
        | Absent => Some (Ends Absent)
        | Throw e => Some (Ends (Throw e))
        | Return None => Some (Ends (Throw InvalidStartError))
        | Return (Some direction) =>
            walkLoopWithin capacity fuel grid endPos (move start direction)
                           direction [STARTING_CHAR] [] []
        end
  | _, _ => Some (Ends (Throw StartEndError))
  end.

(** ** Fixture maps ([maps.ts]) *)

Module Maps.
Notation "'__'" := blank (only parsing).

Definition basicExampleMap : Grid :=
  [ ["@"; "-"; "-"; "-"; "A"; "-"; "-"; "-"; "+"];
    [__; __; __; __; __; __; __; __; "|"];
    ["x"; "-"; "B"; "-"; "+"; __; __; __; "C"];
    [__; __; __; __; "|"; __; __; __; "|"];
    [__; __; __; __; "+"; "-"; "-"; "-"; "+"] ].

Definition lettersMayBeFoundOnTurnsMap : Grid :=
  [ ["@"; "-"; "-"; "-"; "A"; "-"; "-"; "-"; "+"];
    [__; __; __; __; __; __; __; __; "|"];
    ["x"; "-"; "B"; "-"; "+"; __; __; __; "|"];
    [__; __; __; __; "|"; __; __; __; "|"];
    [__; __; __; __; "+"; "-"; "-"; "-"; "C"] ].

Definition doNotCollectLetterFromSameLocationTwiceMap : Grid :=
  [ [__; __; __; __; "+"; "-"; "O"; "-"; "N"; "-"; "+"; __; __];
    [__; __; __; __; "|"; __; __; __; __; __; "|"; __; __];
    [__; __; __; __; "|"; __; __; __; "+"; "-"; "I"; "-"; "+"];
    ["@"; "-"; "G"; "-"; "O"; "-"; "+"; __; "|"; __; "|"; __; "|"];
    [__; __; __; __; "|"; __; "|"; __; "+"; "-"; "+"; __; "E"];
    [__; __; __; __; "+"; "-"; "+"; __; __; __; __; __; "S"];
    [__; __; __; __; __; __; __; __; __; __; __; __; "|"];
    [__; __; __; __; __; __; __; __; __; __; __; __; "x"] ].

Definition keepDirectionEvenInCompactSpaceMap : Grid :=
  [ [__; "+"; "-"; "L"; "-"; "+"];
    [__; "|"; __; __; "+"; "A"; "-"; "+"];
    ["@"; "B"; "+"; __; "+"; "+"; __; "H"];
    [__; "+"; "+"; __; __; __; __; "x"] ].

Definition forkInPathMap : Grid :=
  [ [" "; " "; " "; " "; " "; " "; "x"; "-"; "B"];
    [" "; " "; " "; " "; " "; " "; " "; " "; "|"];
    [" "; "@"; "-"; "-"; "A"; "-"; "-"; "-"; "+"];
    [" "; " "; " "; " "; " "; " "; " "; " "; "|"];
    [" "; " "; " "; " "; " "; "x"; "+"; " "; "C"];
    [" "; " "; " "; " "; " "; " "; "|"; " "; "|"];
    [" "; " "; " "; " "; " "; " "; "+"; "-"; "-"; "+"] ].

Definition brokenPathMap : Grid :=
  [ [" "; " "; " "; "@"; "-"; "-"; "A"; "-"; "+"];
    [" "; " "; " "; " "; " "; " "; " "; " "; "|"];
    [" "];
    [" "; " "; " "; " "; " "; " "; " "; "B"; "-"; "x"] ].

Definition mapWithMultipleStartingPaths : Grid :=
  [ ["x"; "-"; "B"; "-"; "@"; "-"; "A"; "-"; "x"] ].

Definition fakeTurnMap : Grid :=
  [ ["@"; "-"; "A"; "-"; "+"; "-"; "B"; "-"; "x"] ].

Definition multipleStart3Map : Grid :=
  [ [" "; "@"; "-"; "-"; "A"; "-"; "-"; "x"];
    [" "];
    ["x"; "-"; "B"; "-"; "+"];
    [" "; " "; " "; " "; "|"];
    [" "; " "; " "; " "; "@"] ].
End Maps.

(** ** Definitions for the statements: counts, declarative reading of the
    resolver, the states of the loop *)

(** The number of cells equal to [char] (the spec's "how many markers"). *)
Definition occurrences (grid : Grid) (char : string) : nat :=
  List.length (filter (fun s => String.eqb s char) (List.concat grid)).

Definition rowOccurrences (r : list string) (char : string) : nat :=
  List.length (filter (fun s => String.eqb s char) r).

Definition seenCount (target : string) (occ : set string) : nat :=
  if set_mem string_dec target occ then 1%nat else 0%nat.

(** A cell that exists and passes the walkable test. *)
Definition walkableAt (grid : Grid) (p : Position) : bool :=
  match cell grid p with
  | Some c => isWalkable c
  | None => false
  end.

(** Stepping from [p] in direction [dir] lands on such a cell. *)
Definition validStep (grid : Grid) (p : Position) (dir : Direction) : bool :=
  walkableAt grid (move p dir).

Definition opposite (d : Direction) : Direction := mkPosition (- row d) (- col d).

Definition isReverse (d dir : Direction) : bool :=
  (row dir =? - row d) && (col dir =? - col d).

Definition isPerpendicular (d dir : Direction) : bool :=
  row d * row dir + col d * col dir =? 0.

(** The spec's [perpendicularCandidates]: the directions orthogonal to the
    axis of [d], in the order of [DIRECTIONS]. *)
Definition perpendicularCandidates (d : Direction) : list Direction :=
  filter (isPerpendicular d) DIRECTIONS.

(** The spec's "first in-bounds, walkable perpendicular candidate,
    excluding the reverse". *)
Definition firstPerpendicularStep (grid : Grid) (p : Position) (d : Direction)
  : option (Position * Direction) :=
  match find (fun dir => negb (isReverse d dir) && validStep grid p dir)
             (perpendicularCandidates d) with
  | Some dir => Some (move p dir, dir)
  | None => None
  end.

Definition Position_eq_dec (p q : Position) : {p = q} + {p <> q}.
Proof. decide equality; apply Z.eq_dec. Defined.

(** A letter cell with a blank cell ahead of it and the end marker below. *)
Definition letterBlockedMap : Grid :=
  [ ["@"; "A"; " "];
    [blank; "x"; blank] ].

(** The (position, direction) pairs at which the loop body runs, in order:
    the control skeleton of [walkLoop] without its accumulators. *)
Fixpoint visited (fuel : nat) (grid : Grid) (endPos : Position)
         (p : Position) (d : Direction) : list (Position * Direction) :=
  match fuel with
  | O => []
  | S fuel' =>
      (p, d) ::
      if samePosition p endPos then []
      else match findNextPosition grid p d with
           | Return (Some (np, nd)) => visited fuel' grid endPos np nd
           | _ => []
           end
  end.

(** The same for a whole call of [collectLettersAndPath]. *)
Definition visitedStates (fuel : nat) (grid : Grid) : list (Position * Direction) :=
  match findPosition grid STARTING_CHAR, findPosition grid ENDING_CHAR with
  | Some start, Some endPos =>
      if hasMultipleOccurrences grid STARTING_CHAR then []
      else match findInitialDirection grid start with
           | Return (Some direction) =>
               visited fuel grid endPos (move start direction) direction
           | _ => []
           end
  | _, _ => []
  end.

Definition visitedPositions (fuel : nat) (grid : Grid) : list Position :=
  map fst (visitedStates fuel grid).

(** The string a position holds ([blank] off the grid). *)
Definition cellAt (grid : Grid) (p : Position) : string :=
  match cell grid p with
  | Some c => c
  | None => blank
  end.

Definition isLetterAt (grid : Grid) (p : Position) : bool :=
  testUpper (cellAt grid p).

Arguments cellAt : simpl never.
Arguments isLetterAt : simpl never.

(** The positions of a visiting sequence, each kept at its first visit and
    dropped afterwards; [seen] holds those met so far. *)
Fixpoint firstVisitsFrom (seen : list Position) (l : list Position) : list Position :=
  match l with
  | [] => []
  | p :: l' =>
      if in_dec Position_eq_dec p seen then firstVisitsFrom seen l'
      else p :: firstVisitsFrom (seen ++ [p]) l'
  end.

Definition firstVisits (l : list Position) : list Position := firstVisitsFrom [] l.

(** Grids whose cells hold at most one character, as the spec assumes. *)
Definition singleCharCells (grid : Grid) : Prop :=
  Forall (Forall (fun s => (String.length s <= 1)%nat)) grid.

Definition State : Type := (Position * Direction)%type.

(** The control part of one run of the loop body: the next state when the
    loop goes round again, [None] when it leaves (result, error or a
    missing cell). *)
Definition advance (grid : Grid) (endPos : Position) (s : State) : option State :=
  match readCell grid (fst s) with
  | Return _ =>
      if samePosition (fst s) endPos then None
      else match findNextPosition grid (fst s) (snd s) with
           | Return (Some s') => Some s'
           | _ => None
           end
  | _ => None
  end.

(** [n] rounds of the loop, if it stays in that long. *)
Fixpoint iterate (n : nat) (grid : Grid) (endPos : Position) (s : State)
  : option State :=
  match n with
  | O => Some s
  | S n' =>
      match advance grid endPos s with
      | Some s' => iterate n' grid endPos s'
      | None => None
      end
  end.

(** A closed loop that does not pass through the end marker. *)
Definition loopMap : Grid :=
  [ ["@"; "-"; "+"; "-"; "+"];
    [blank; blank; "|"; blank; "|"];
    ["x"; blank; "+"; "-"; "+"] ].

Fixpoint rowPositions (r c : Z) (line : list string) : list Position :=
  match line with
  | [] => []
  | _ :: line' => mkPosition r c :: rowPositions r (c + 1) line'
  end.

Fixpoint gridPositions (r : Z) (grid : Grid) : list Position :=
  match grid with
  | [] => []
  | line :: grid' => rowPositions r 0 line ++ gridPositions (r + 1) grid'
  end.

Definition cellCount (grid : Grid) : nat := List.length (List.concat grid).

(** Every (cell, direction) pair. *)
Definition allStates (grid : Grid) : list State :=
  list_prod (gridPositions 0 grid) DIRECTIONS.


(** [q] comes before [p] in the scan of [findPosition]: rows top to bottom,
    columns left to right. *)
Definition rowMajorBefore (q p : Position) : Prop :=
  row q < row p \/ (row q = row p /\ col q < col p).

(** Every character of [s] lies in the class. *)
Fixpoint everyChar (cls : ascii -> bool) (s : string) : bool :=
  match s with
  | EmptyString => true
  | String a s' => cls a && everyChar cls s'
  end.

(** * Proofs *)

(** ** The expectations of [index.test.ts] on the fixture maps *)

Example basic_example :
  collectLettersAndPath 40 Maps.basicExampleMap
  = Some (Return (mkResult "ACB" "@---A---+|C|+---+|+-B-x")).
Proof. vm_compute. reflexivity. Qed.

Example letters_on_turns :
  collectLettersAndPath 40 Maps.lettersMayBeFoundOnTurnsMap
  = Some (Return (mkResult "ACB" "@---A---+|||C---+|+-B-x")).
Proof. vm_compute. reflexivity. Qed.

Example same_location_twice :
  collectLettersAndPath 60 Maps.doNotCollectLetterFromSameLocationTwiceMap
  = Some (Return (mkResult "GOONIES" "@-G-O-+|+-+|O||+-O-N-+|I|+-+|+-I-+|ES|x")).
Proof. vm_compute. reflexivity. Qed.

Example compact_space :
  collectLettersAndPath 40 Maps.keepDirectionEvenInCompactSpaceMap
  = Some (Return (mkResult "BLAH" "@B+++B|+-L-+A+++A-+Hx")).
Proof. vm_compute. reflexivity. Qed.

Example fork_in_path :
  collectLettersAndPath 40 Maps.forkInPathMap = Some (Throw OneDirectionError).
Proof. vm_compute. reflexivity. Qed.

Example broken_path :
  collectLettersAndPath 40 Maps.brokenPathMap = Some (Throw BrokenPathError).
Proof. vm_compute. reflexivity. Qed.

Example multiple_start_3 :
  collectLettersAndPath 40 Maps.multipleStart3Map = Some (Throw StartEndError).
Proof. vm_compute. reflexivity. Qed.

Example start_end_message :
  errorMessage StartEndError
  = "The map must contain exactly one start '@' and one end 'x'.".
Proof. reflexivity. Qed.

(** ** Facts about the grid primitives *)

Lemma occurrences_cons (r : list string) (grid : Grid) (char : string) :
  occurrences (r :: grid) char = (rowOccurrences r char + occurrences grid char)%nat.
Proof.
  unfold occurrences, rowOccurrences. simpl.
  now rewrite filter_app, length_app.
Qed.

Lemma nthZ_Some {A : Type} (l : list A) (i : Z) (a : A) :
  nthZ l i = Some a -> 0 <= i < Z.of_nat (List.length l).
Proof.
  unfold nthZ. destruct (Z.ltb_spec i 0); [discriminate|].
  intros E. assert (Hn : nth_error l (Z.to_nat i) <> None) by congruence.
  apply nth_error_Some in Hn. lia.
Qed.

Lemma nthZ_in_range {A : Type} (l : list A) (i : Z) :
  0 <= i < Z.of_nat (List.length l) -> exists a, nthZ l i = Some a.
Proof.
  intros H. unfold nthZ. destruct (Z.ltb_spec i 0); [lia|].
  destruct (nth_error l (Z.to_nat i)) eqn:E; [eauto|].
  apply nth_error_None in E. lia.
Qed.

Lemma nthZ_cons_succ {A : Type} (x : A) (l : list A) (i : Z) :
  0 <= i -> nthZ (x :: l) (i + 1) = nthZ l i.
Proof.
  intros H. unfold nthZ.
  destruct (Z.ltb_spec (i + 1) 0); [lia|]. destruct (Z.ltb_spec i 0); [lia|].
  replace (Z.to_nat (i + 1)) with (S (Z.to_nat i)) by lia. reflexivity.
Qed.

Lemma isWithinBounds_cell (grid : Grid) (p : Position) :
  isWithinBounds grid p = true <-> exists c, cell grid p = Some c.
Proof.
  unfold isWithinBounds, cell. split.
  - intros H. repeat (apply andb_prop in H; destruct H as [H ?]).
    destruct (nthZ grid (row p)) as [r|] eqn:E; [|discriminate].
    apply nthZ_in_range. lia.
  - intros [c H].
    destruct (nthZ grid (row p)) as [r|] eqn:E; [|discriminate].
    apply nthZ_Some in E. apply nthZ_Some in H.
    repeat (apply andb_true_intro; split); lia.
Qed.

Lemma isWithinBounds_bounds (grid : Grid) (p : Position) :
  isWithinBounds grid p = true ->
  0 <= row p < Z.of_nat (List.length grid)
  /\ exists line, nthZ grid (row p) = Some line
                  /\ 0 <= col p < Z.of_nat (List.length line).
Proof.
  unfold isWithinBounds. intros H.
  repeat (apply andb_prop in H; destruct H as [H ?]).
  destruct (nthZ grid (row p)) as [line|]; [|discriminate].
  split; [lia|]. exists line. split; [reflexivity | lia].
Qed.

Lemma readCell_in_bounds (grid : Grid) (p : Position) :
  isWithinBounds grid p = true -> exists c, readCell grid p = Return c.
Proof.
  intros H. apply isWithinBounds_cell in H as [c H].
  exists c. unfold readCell. now rewrite H.
Qed.

Lemma readCell_Return (grid : Grid) (p : Position) (c : string) :
  readCell grid p = Return c <-> cell grid p = Some c.
Proof.
  unfold readCell. destruct (cell grid p); split; congruence.
Qed.

(** *** [findPosition] *)

Lemma findInRow_None (r : list string) (char : string) (c0 : Z) :
  findInRow r char c0 = None <-> rowOccurrences r char = 0%nat.
Proof.
  unfold rowOccurrences. revert c0.
  induction r as [|s r IH]; intros c0; simpl; [tauto|].
  destruct (String.eqb s char); simpl; [split; discriminate | apply IH].
Qed.

Lemma findInRow_Some (r : list string) (char : string) (c0 c : Z) :
  findInRow r char c0 = Some c ->
  c0 <= c /\ nthZ r (c - c0) = Some char.
Proof.
  revert c0. induction r as [|s r IH]; intros c0; simpl; [discriminate|].
  destruct (String.eqb_spec s char) as [->|_].
  - intros [= <-]. rewrite Z.sub_diag. split; [lia | reflexivity].
  - intros H. apply IH in H as [Hle Hn]. split; [lia|].
    replace (c - c0) with ((c - (c0 + 1)) + 1) by lia.
    rewrite nthZ_cons_succ by lia. exact Hn.
Qed.

Lemma findPositionFrom_None (grid : Grid) (char : string) (r0 : Z) :
  findPositionFrom grid char r0 = None <-> occurrences grid char = 0%nat.
Proof.
  revert r0. induction grid as [|line grid IH]; intros r0; simpl; [tauto|].
  rewrite occurrences_cons.
  destruct (findInRow line char 0) eqn:E.
  - split; [discriminate|]. intros H.
    assert (E' : findInRow line char 0 = None) by (apply findInRow_None; lia).
    congruence.
  - apply findInRow_None in E. rewrite E. apply IH.
Qed.

Lemma findPositionFrom_Some (grid : Grid) (char : string) (r0 : Z) (p : Position) :
  findPositionFrom grid char r0 = Some p ->
  r0 <= row p /\ cell grid (mkPosition (row p - r0) (col p)) = Some char.
Proof.
  revert r0. induction grid as [|line grid IH]; intros r0; simpl; [discriminate|].
  destruct (findInRow line char 0) eqn:E.
  - intros [= <-]. simpl. rewrite Z.sub_diag.
    apply findInRow_Some in E as [_ E]. rewrite Z.sub_0_r in E.
    split; [lia | exact E].
  - intros H. apply IH in H as [Hle Hc]. split; [lia|].
    unfold cell in *. simpl in *.
    replace (row p - r0) with ((row p - (r0 + 1)) + 1) by lia.
    rewrite nthZ_cons_succ by lia. exact Hc.
Qed.

Lemma findPosition_None (grid : Grid) (char : string) :
  findPosition grid char = None <-> occurrences grid char = 0%nat.
Proof. apply findPositionFrom_None. Qed.

Lemma findPosition_cell (grid : Grid) (char : string) (p : Position) :
  findPosition grid char = Some p -> cell grid p = Some char.
Proof.
  intros H. apply findPositionFrom_Some in H as [_ H].
  rewrite Z.sub_0_r in H. now destruct p.
Qed.

(** *** [hasMultipleOccurrences] *)

Lemma seenCount_add (target : string) (occ : set string) :
  seenCount target (set_add string_dec target occ) = 1%nat.
Proof.
  unfold seenCount.
  rewrite (set_mem_correct2 string_dec); [reflexivity|].
  now apply set_add_intro2.
Qed.

Lemma scanRow_spec (r : list string) (target : string) (occ : set string) :
  match scanRow r target occ with
  | None => (2 <= rowOccurrences r target + seenCount target occ)%nat
  | Some occ' =>
      seenCount target occ' = (rowOccurrences r target + seenCount target occ)%nat
      /\ (seenCount target occ' <= 1)%nat
  end.
Proof.
  unfold rowOccurrences. revert occ.
  induction r as [|s r IH]; intros occ; simpl.
  - split; [reflexivity|]. unfold seenCount. destruct set_mem; lia.
  - destruct (String.eqb s target); simpl; [|apply IH].
    destruct (set_mem string_dec target occ) eqn:M.
    + unfold seenCount. rewrite M. lia.
    + specialize (IH (set_add string_dec target occ)).
      rewrite seenCount_add in IH.
      assert (S0 : seenCount target occ = 0%nat) by (unfold seenCount; now rewrite M).
      rewrite S0.
      destruct (scanRow r target (set_add string_dec target occ)); lia.
Qed.

Lemma scanRows_spec (grid : Grid) (target : string) (occ : set string) :
  scanRows grid target occ = true
  <-> (2 <= occurrences grid target + seenCount target occ)%nat.
Proof.
  revert occ. induction grid as [|r grid IH]; intros occ; simpl.
  - unfold occurrences, seenCount. simpl.
    destruct set_mem; split; try discriminate; lia.
  - rewrite occurrences_cons.
    pose proof (scanRow_spec r target occ) as H.
    destruct (scanRow r target occ) as [occ'|].
    + destruct H as [H1 H2]. rewrite IH. lia.
    + split; [lia | reflexivity].
Qed.

Lemma hasMultipleOccurrences_spec (grid : Grid) (target : string) :
  hasMultipleOccurrences grid target = true <-> (2 <= occurrences grid target)%nat.
Proof.
  unfold hasMultipleOccurrences. rewrite scanRows_spec.
  unfold seenCount. simpl. lia.
Qed.

(** ** Which errors each function can throw *)

(** Case analysis on the next read of a cell. *)
Ltac case_read :=
  unfold readCell;
  match goal with
  | |- context [cell ?g ?p] => destruct (cell g p) as [?c|] eqn:?Hc
  end; simpl.

Lemma countValidDirections_no_throw grid position dirs n e :
  countValidDirections grid position dirs n <> Throw e.
Proof.
  revert n. induction dirs as [|d dirs IH]; intros n; simpl; [discriminate|].
  destruct (isWithinBounds grid _); [|apply IH].
  case_read; [|discriminate].
  destruct (isWalkable c); apply IH.
Qed.

Lemma haveOneValidDirection_throw grid position d e :
  haveOneValidDirection grid position d = Throw e -> e = OneDirectionError.
Proof.
  unfold haveOneValidDirection.
  case_read; [|discriminate].
  destruct (negb _); [discriminate|].
  destruct (countValidDirections _ _ _ _) as [n| |] eqn:E; simpl; try discriminate.
  - destruct (n >? 1); [congruence | discriminate].
  - now apply countValidDirections_no_throw in E.
Qed.

Lemma tryDirections_no_throw grid p d dirs e :
  tryDirections grid p d dirs <> Throw e.
Proof.
  induction dirs as [|dir dirs IH]; simpl; [discriminate|].
  destruct (isWithinBounds grid _); [|apply IH].
  case_read; [|discriminate].
  destruct (_ && _); [discriminate | apply IH].
Qed.

Lemma findNextPosition_throw grid p d e :
  findNextPosition grid p d = Throw e -> e = OneDirectionError.
Proof.
  unfold findNextPosition.
  case_read; [|discriminate].
  assert (Straight :
    (if isWithinBounds grid (move p d)
     then nextChar <- readCell grid (move p d) ;;
          (if isWalkable nextChar then Return (Some (move p d, d)) else Return None)
     else if testUpper c
          then tryDirections grid p d (filterDirections d)
          else Return None) = Throw e -> e = OneDirectionError).
  { destruct (isWithinBounds grid _).
    - case_read; [|discriminate]. destruct (isWalkable c0); discriminate.
    - destruct (testUpper c); [|discriminate].
      intros H. now apply tryDirections_no_throw in H. }
  destruct (String.eqb c CHANGE_DIRECTION_CHAR); [|exact Straight].
  destruct (haveOneValidDirection grid p d) as [[|]| |] eqn:E; simpl;
    try discriminate.
  - intros H. now apply tryDirections_no_throw in H.
  - exact Straight.
  - intros [= <-]. now apply haveOneValidDirection_throw in E.
Qed.

Lemma collectValidDirections_no_throw grid start dirs acc e :
  collectValidDirections grid start dirs acc <> Throw e.
Proof.
  revert acc. induction dirs as [|d dirs IH]; intros acc; simpl; [discriminate|].
  destruct (isWithinBounds grid _); [|apply IH].
  case_read; [|discriminate].
  destruct (isWalkable c); apply IH.
Qed.

Lemma findInitialDirection_throw grid start e :
  findInitialDirection grid start = Throw e -> e = StartingPathError.
Proof.
  unfold findInitialDirection.
  destruct (collectValidDirections _ _ _ _) as [l| |] eqn:E; simpl; try discriminate.
  - destruct l as [|d [|d' l]]; congruence.
  - now apply collectValidDirections_no_throw in E.
Qed.

Lemma walkLoop_throw fuel grid endPos p d path letters location e :
  walkLoop fuel grid endPos p d path letters location = Some (Throw e) ->
  e = OneDirectionError \/ e = BrokenPathError.
Proof.
  revert p d path letters location.
  induction fuel as [|fuel IH]; intros p d path letters location; simpl;
    [discriminate|].
  case_read; [|discriminate].
  destruct (samePosition p endPos); [discriminate|].
  destruct (findNextPosition grid p d) as [[[np nd]|]| |] eqn:E.
  - apply IH.
  - intros [= <-]. now right.
  - intros [= <-]. left. now apply findNextPosition_throw in E.
  - discriminate.
Qed.

(** ** The start/end check *)

Lemma start_end_rejected (grid : Grid) :
  (occurrences grid STARTING_CHAR <> 1%nat \/ occurrences grid ENDING_CHAR = 0%nat) ->
  forall fuel, collectLettersAndPath fuel grid = Some (Throw StartEndError).
Proof.
  intros H fuel. unfold collectLettersAndPath.
  destruct (findPosition grid STARTING_CHAR) as [start|] eqn:Es; [|reflexivity].
  destruct (findPosition grid ENDING_CHAR) as [endPos|] eqn:Ee; [|reflexivity].
  destruct (hasMultipleOccurrences grid STARTING_CHAR) eqn:Em; [reflexivity|].
  exfalso.
  assert (Hs : occurrences grid STARTING_CHAR <> 0%nat)
    by (intros Z0; apply findPosition_None in Z0; congruence).
  assert (He : occurrences grid ENDING_CHAR <> 0%nat)
    by (intros Z0; apply findPosition_None in Z0; congruence).
  assert (Hm : ~ (2 <= occurrences grid STARTING_CHAR)%nat)
    by (intros Z0; apply hasMultipleOccurrences_spec in Z0; congruence).
  lia.
Qed.

Lemma start_end_accepted (grid : Grid) (fuel : nat) :
  occurrences grid STARTING_CHAR = 1%nat ->
  occurrences grid ENDING_CHAR <> 0%nat ->
  collectLettersAndPath fuel grid <> Some (Throw StartEndError).
Proof.
  intros Hs He. unfold collectLettersAndPath.
  destruct (findPosition grid STARTING_CHAR) as [start|] eqn:Es;
    [|apply findPosition_None in Es; lia].
  destruct (findPosition grid ENDING_CHAR) as [endPos|] eqn:Ee;
    [|apply findPosition_None in Ee; lia].
  destruct (hasMultipleOccurrences grid STARTING_CHAR) eqn:Em;
    [apply hasMultipleOccurrences_spec in Em; lia|].
  destruct (findInitialDirection grid start) as [[dir|]| |] eqn:Ei; try discriminate.
  - intros H. apply walkLoop_throw in H as [H|H]; discriminate.
  - intros [= ->]. apply findInitialDirection_throw in Ei. discriminate.
Qed.

(** C1, as stated, fails: the fixture [mapWithMultipleStartingPaths] has one
    start marker and two end markers, and the program goes on to the initial
    direction, where it throws the starting-path error instead. *)
Lemma start_end_two_ends_counterexample :
  ~ (forall grid : Grid,
        ~ (occurrences grid STARTING_CHAR = 1%nat
           /\ occurrences grid ENDING_CHAR = 1%nat) ->
        forall fuel, collectLettersAndPath fuel grid = Some (Throw StartEndError)).
Proof.
  intros H.
  specialize (H Maps.mapWithMultipleStartingPaths).
  assert (E : collectLettersAndPath 0 Maps.mapWithMultipleStartingPaths
              = Some (Throw StartingPathError)) by (vm_compute; reflexivity).
  rewrite H in E; [discriminate|].
  vm_compute. intros [_ E2]. discriminate.
Qed.

(** C1 (amended): the walk is rejected with the start/end error, whatever
    the fuel (so before the loop runs at all), exactly when the grid has
    zero or several start markers [@] or no end marker [x]; several end
    markers alone do not trigger it. *)
Theorem start_end_check (grid : Grid) (fuel : nat) :
  collectLettersAndPath fuel grid = Some (Throw StartEndError)
  <-> (occurrences grid STARTING_CHAR <> 1%nat
       \/ occurrences grid ENDING_CHAR = 0%nat).
Proof.
  split.
  - intros H.
    destruct (Nat.eq_dec (occurrences grid STARTING_CHAR) 1) as [Hs|Hs]; [|now left].
    destruct (Nat.eq_dec (occurrences grid ENDING_CHAR) 0) as [He|He]; [now right|].
    exfalso. exact (start_end_accepted grid fuel Hs He H).
  - intros H. now apply start_end_rejected.
Qed.

Lemma start_end_check_witness :
  collectLettersAndPath 0 Maps.multipleStart3Map = Some (Throw StartEndError)
  /\ occurrences Maps.multipleStart3Map STARTING_CHAR = 2%nat.
Proof.
  split.
  - apply (proj2 (start_end_check Maps.multipleStart3Map 0)).
    left. vm_compute. discriminate.
  - vm_compute. reflexivity.
Defined.

(** ** The direction resolver, read declaratively *)

Lemma walkableAt_in_bounds grid p :
  walkableAt grid p = true -> isWithinBounds grid p = true.
Proof.
  unfold walkableAt. intros H. apply isWithinBounds_cell.
  destruct (cell grid p) as [c|]; [eauto | discriminate].
Qed.

(** A read behind a bounds check never misses. *)
Lemma guarded_read {B : Type} grid q (k : string -> Outcome B) (e : Outcome B) :
  (if isWithinBounds grid q then c <- readCell grid q ;; k c else e)
  = match cell grid q with Some c => k c | None => e end.
Proof.
  destruct (isWithinBounds grid q) eqn:W.
  - apply readCell_in_bounds in W as [c W]. rewrite W. simpl.
    apply readCell_Return in W. now rewrite W.
  - destruct (cell grid q) as [c|] eqn:C; [|reflexivity].
    assert (isWithinBounds grid q = true) by (apply isWithinBounds_cell; eauto).
    congruence.
Qed.

Lemma filterDirections_cardinal (d : Direction) :
  In d DIRECTIONS -> filterDirections d = perpendicularCandidates d.
Proof.
  intros H. simpl in H.
  destruct H as [<-|[<-|[<-|[<-|[]]]]]; reflexivity.
Qed.

Lemma perpendicular_not_reverse (d dir : Direction) :
  In d DIRECTIONS -> In dir (perpendicularCandidates d) -> isReverse d dir = false.
Proof.
  intros H. simpl in H.
  destruct H as [<-|[<-|[<-|[<-|[]]]]]; simpl;
    intros [<-|[<-|[]]]; reflexivity.
Qed.

Lemma countValidDirections_spec grid position dirs n :
  countValidDirections grid position dirs n
  = Return (n + Z.of_nat (List.length (filter (validStep grid position) dirs))).
Proof.
  revert n. induction dirs as [|dir dirs IH]; intros n; simpl.
  - now rewrite Z.add_0_r.
  - rewrite guarded_read. fold (move position dir).
    unfold validStep at 1, walkableAt.
    destruct (cell grid (move position dir)) as [c|]; [|apply IH].
    destruct (isWalkable c); rewrite IH; [|reflexivity].
    simpl List.length. f_equal. lia.
Qed.

Lemma collectValidDirections_spec grid start dirs acc :
  collectValidDirections grid start dirs acc
  = Return (acc ++ filter (validStep grid start) dirs).
Proof.
  revert acc. induction dirs as [|dir dirs IH]; intros acc; simpl.
  - now rewrite app_nil_r.
  - rewrite guarded_read. unfold validStep at 1, walkableAt.
    destruct (cell grid (move start dir)) as [c|]; [|apply IH].
    destruct (isWalkable c); rewrite IH; [|reflexivity].
    now rewrite <- app_assoc.
Qed.

Lemma tryDirections_spec grid p d dirs :
  tryDirections grid p d dirs
  = Return match find (fun dir => negb (isReverse d dir) && validStep grid p dir)
                      dirs with
           | Some dir => Some (move p dir, dir)
           | None => None
           end.
Proof.
  induction dirs as [|dir dirs IH]; simpl; [reflexivity|].
  rewrite guarded_read. unfold validStep at 1, walkableAt, isReverse at 1.
  rewrite negb_andb.
  destruct (cell grid (move p dir)) as [c|].
  - destruct (_ && isWalkable c); [reflexivity | apply IH].
  - rewrite andb_false_r. apply IH.
Qed.

Lemma haveOneValidDirection_spec grid p d c :
  cell grid p = Some c ->
  haveOneValidDirection grid p d
  = if negb (String.eqb c CHANGE_DIRECTION_CHAR) then Return false
    else if (1 <? List.length (filter (validStep grid p) (filterDirections d)))%nat
         then Throw OneDirectionError
         else Return true.
Proof.
  intros C. unfold haveOneValidDirection, readCell. rewrite C. simpl.
  destruct (negb _); [reflexivity|].
  rewrite countValidDirections_spec. simpl.
  set (n := List.length _).
  destruct (Nat.ltb_spec 1 n); destruct (Z.gtb_spec (Z.of_nat n) 1);
    try reflexivity; lia.
Qed.

(** [findNextPosition] on an existing cell, with the bounds checks and the
    reads folded into [cell], [validStep] and [find]. *)
Lemma findNextPosition_spec grid p d c :
  cell grid p = Some c ->
  findNextPosition grid p d
  = if String.eqb c CHANGE_DIRECTION_CHAR then
      if (1 <? List.length (filter (validStep grid p) (filterDirections d)))%nat
      then Throw OneDirectionError
      else tryDirections grid p d (filterDirections d)
    else
      match cell grid (move p d) with
      | Some nextChar =>
          if isWalkable nextChar then Return (Some (move p d, d)) else Return None
      | None =>
          if testUpper c then tryDirections grid p d (filterDirections d)
          else Return None
      end.
Proof.
  intros C. unfold findNextPosition, readCell at 1. rewrite C. simpl.
  rewrite guarded_read.
  destruct (String.eqb_spec c CHANGE_DIRECTION_CHAR) as [->|N]; [|reflexivity].
  rewrite (haveOneValidDirection_spec _ _ _ _ C). simpl.
  destruct (_ <? _)%nat; reflexivity.
Qed.

(** ** One iteration of the walk loop, and fuel *)

Lemma samePosition_true p q : samePosition p q = true <-> p = q.
Proof.
  unfold samePosition. destruct p, q; simpl. split.
  - intros H. apply andb_prop in H as [H1 H2].
    apply Z.eqb_eq in H1, H2. congruence.
  - intros [= -> ->]. now rewrite !Z.eqb_refl.
Qed.

Lemma not_at_end grid p endPos c :
  cell grid p = Some c -> c <> ENDING_CHAR -> cell grid endPos = Some ENDING_CHAR ->
  samePosition p endPos = false.
Proof.
  intros C N E. destruct (samePosition p endPos) eqn:S; [|reflexivity].
  apply samePosition_true in S. subst. congruence.
Qed.

(** When the resolver returns [null] away from the end, the walker throws
    the broken-path error; when the resolver throws, the error passes
    through. *)
Lemma walkLoop_null_is_broken fuel grid endPos p d path letters location c :
  cell grid p = Some c -> samePosition p endPos = false ->
  findNextPosition grid p d = Return None ->
  walkLoop (S fuel) grid endPos p d path letters location
  = Some (Throw BrokenPathError).
Proof.
  intros C S F. simpl. unfold readCell. now rewrite C, S, F.
Qed.

Lemma walkLoop_resolver_throw fuel grid endPos p d path letters location c e :
  cell grid p = Some c -> samePosition p endPos = false ->
  findNextPosition grid p d = Throw e ->
  walkLoop (S fuel) grid endPos p d path letters location = Some (Throw e).
Proof.
  intros C S F. simpl. unfold readCell. now rewrite C, S, F.
Qed.

Lemma walkLoop_more_fuel n m grid endPos p d path letters location r :
  walkLoop n grid endPos p d path letters location = Some r -> (n <= m)%nat ->
  walkLoop m grid endPos p d path letters location = Some r.
Proof.
  revert m p d path letters location.
  induction n as [|n IH]; intros m p d path letters location; [discriminate|].
  intros H L. destruct m as [|m]; [lia|]. simpl in *.
  destruct (readCell grid p) as [c| |]; try exact H.
  destruct (samePosition p endPos); [exact H|].
  destruct (findNextPosition grid p d) as [[[np nd]|]| |]; try exact H.
  apply IH; [exact H | lia].
Qed.

Lemma collect_more_fuel n m grid r :
  collectLettersAndPath n grid = Some r -> (n <= m)%nat ->
  collectLettersAndPath m grid = Some r.
Proof.
  unfold collectLettersAndPath. intros H L.
  destruct (findPosition grid STARTING_CHAR); [|exact H].
  destruct (findPosition grid ENDING_CHAR); [|exact H].
  destruct (hasMultipleOccurrences grid STARTING_CHAR); [exact H|].
  destruct (findInitialDirection grid p) as [[dir|]| |]; try exact H.
  eapply walkLoop_more_fuel; eauto.
Qed.

(** ** Letters as turning points (C3) *)

(** C3, as stated, fails where the forward cell exists but is not walkable:
    at the [A] of [letterBlockedMap], heading right, the cell below is the
    end marker, yet the resolver returns [null] and the walk is broken. *)
Lemma letter_turn_blocked_counterexample :
  ~ (forall grid p d c,
        In d DIRECTIONS -> cell grid p = Some c -> testUpper c = true ->
        validStep grid p d = false ->
        findNextPosition grid p d = Return (firstPerpendicularStep grid p d)).
Proof.
  intros H.
  specialize (H letterBlockedMap (mkPosition 0 1) (mkPosition 0 1) "A").
  assert (E : findNextPosition letterBlockedMap (mkPosition 0 1) (mkPosition 0 1)
              = Return None) by (vm_compute; reflexivity).
  rewrite H in E; try (vm_compute; reflexivity).
  - vm_compute in E. discriminate.
  - simpl. tauto.
Qed.

Example letter_blocked_walk :
  collectLettersAndPath 1 letterBlockedMap = Some (Throw BrokenPathError).
Proof. vm_compute. reflexivity. Qed.

Lemma testUpper_not_turn c : testUpper c = true -> c <> CHANGE_DIRECTION_CHAR.
Proof. intros H ->. vm_compute in H. discriminate. Qed.

(** C3 (amended): at an uppercase-letter cell, when the forward cell is off
    the grid the resolver takes the first perpendicular candidate (never the
    reverse) that is in bounds and walkable, and returns [null] only if
    there is none; when the forward cell is in bounds but not walkable it
    returns [null] without trying the perpendicular directions.  On [null]
    the walker throws the broken-path error. *)
Theorem letter_turn_off_grid grid p d c
        (Hd : In d DIRECTIONS) (Hc : cell grid p = Some c)
        (Hu : testUpper c = true) :
  (isWithinBounds grid (move p d) = false ->
   findNextPosition grid p d = Return (firstPerpendicularStep grid p d))
  /\ (isWithinBounds grid (move p d) = true -> validStep grid p d = false ->
      findNextPosition grid p d = Return None)
  /\ (forall endPos fuel pathAcc lettersAcc location,
        cell grid endPos = Some ENDING_CHAR ->
        findNextPosition grid p d = Return None ->
        walkLoop (S fuel) grid endPos p d pathAcc lettersAcc location
        = Some (Throw BrokenPathError)).
Proof.
  assert (Walker : forall endPos fuel pathAcc lettersAcc location,
            cell grid endPos = Some ENDING_CHAR ->
            findNextPosition grid p d = Return None ->
            walkLoop (S fuel) grid endPos p d pathAcc lettersAcc location
            = Some (Throw BrokenPathError)).
  { intros endPos fuel pathAcc lettersAcc location He Hf.
    apply (walkLoop_null_is_broken _ _ _ _ _ _ _ _ c); auto.
    apply (not_at_end grid p endPos c); auto.
    intros ->. vm_compute in Hu. discriminate. }
  rewrite (findNextPosition_spec _ _ _ _ Hc) in *.
  apply testUpper_not_turn in Hu as Hn.
  destruct (String.eqb_spec c CHANGE_DIRECTION_CHAR) as [E|_]; [contradiction|].
  split; [|split; [|exact Walker]].
  - intros W. destruct (cell grid (move p d)) as [c'|] eqn:C.
    + assert (isWithinBounds grid (move p d) = true)
        by (apply isWithinBounds_cell; eauto). congruence.
    + rewrite Hu, tryDirections_spec, filterDirections_cardinal by exact Hd.
      reflexivity.
  - intros W V. apply isWithinBounds_cell in W as [c' C]. rewrite C.
    unfold validStep, walkableAt in V. rewrite C in V. now rewrite V.
Qed.

Lemma letter_turn_off_grid_witness :
  findNextPosition Maps.lettersMayBeFoundOnTurnsMap (mkPosition 4 8) (mkPosition 1 0)
  = Return (Some (mkPosition 4 7, mkPosition 0 (-1))).
Proof.
  refine (proj1 (letter_turn_off_grid Maps.lettersMayBeFoundOnTurnsMap
                   (mkPosition 4 8) (mkPosition 1 0) "C" _ _ _) _).
  - simpl. tauto.
  - reflexivity.
  - reflexivity.
  - reflexivity.
Defined.

(** ** Turn cells (C4, C5) *)

(** C4: at a [+] cell, more than one valid perpendicular direction makes
    the resolver itself throw the one-valid-direction error, which passes
    through the walker; with none, the resolver throws nothing and returns
    [null], and it is the walker that throws the broken-path error. *)
Theorem turn_cell_errors grid p d endPos
        (Hd : In d DIRECTIONS)
        (Hc : cell grid p = Some CHANGE_DIRECTION_CHAR)
        (He : cell grid endPos = Some ENDING_CHAR) :
  let n := List.length (filter (validStep grid p) (perpendicularCandidates d)) in
  ((1 < n)%nat ->
   haveOneValidDirection grid p d = Throw OneDirectionError
   /\ findNextPosition grid p d = Throw OneDirectionError
   /\ forall fuel path letters location,
       walkLoop (S fuel) grid endPos p d path letters location
       = Some (Throw OneDirectionError))
  /\ (n = 0%nat ->
      haveOneValidDirection grid p d = Return true
      /\ findNextPosition grid p d = Return None
      /\ forall fuel path letters location,
          walkLoop (S fuel) grid endPos p d path letters location
          = Some (Throw BrokenPathError)).
Proof.
  intros n.
  assert (S : samePosition p endPos = false)
    by (eapply not_at_end; eauto; discriminate).
  pose proof (haveOneValidDirection_spec _ _ d _ Hc) as H1.
  pose proof (findNextPosition_spec _ _ d _ Hc) as H2.
  rewrite String.eqb_refl in H1, H2. simpl in H1.
  rewrite filterDirections_cardinal in H1, H2 by exact Hd. fold n in H1, H2.
  split; intros Hn.
  - apply Nat.ltb_lt in Hn as Hb. rewrite Hb in H1, H2.
    repeat split; auto. intros. eapply walkLoop_resolver_throw; eauto.
  - assert (Hb : (1 <? n)%nat = false) by (apply Nat.ltb_ge; lia).
    rewrite Hb in H1, H2.
    assert (F : findNextPosition grid p d = Return None).
    { rewrite H2, tryDirections_spec.
      assert (E : filter (validStep grid p) (perpendicularCandidates d) = [])
        by (apply length_zero_iff_nil; exact Hn).
      destruct (find _ _) as [dir|] eqn:Ef; [|reflexivity].
      apply find_some in Ef as [Hin Hv]. apply andb_prop in Hv as [_ Hv].
      assert (Hf : In dir (filter (validStep grid p) (perpendicularCandidates d)))
        by (apply filter_In; auto).
      rewrite E in Hf. destruct Hf. }
    repeat split; auto. intros. eapply walkLoop_null_is_broken; eauto.
Qed.

Lemma turn_cell_errors_witness :
  haveOneValidDirection Maps.forkInPathMap (mkPosition 2 8) (mkPosition 0 1)
  = Throw OneDirectionError.
Proof.
  refine (proj1 (proj1 (turn_cell_errors Maps.forkInPathMap (mkPosition 2 8)
                          (mkPosition 0 1) (mkPosition 0 6) _ _ _) _)).
  - simpl. tauto.
  - reflexivity.
  - reflexivity.
  - vm_compute. lia.
Defined.

Lemma turn_changes_axis grid p d np nd :
  In d DIRECTIONS -> cell grid p = Some CHANGE_DIRECTION_CHAR ->
  findNextPosition grid p d = Return (Some (np, nd)) ->
  isPerpendicular d nd = true /\ nd <> d /\ np = move p nd.
Proof.
  intros Hd Hc. rewrite (findNextPosition_spec _ _ _ _ Hc), String.eqb_refl.
  destruct (_ <? _)%nat; [discriminate|].
  rewrite tryDirections_spec, filterDirections_cardinal by exact Hd.
  destruct (find _ _) as [dir|] eqn:Ef; [|discriminate].
  intros [= <- <-]. apply find_some in Ef as [Hin _].
  apply filter_In in Hin as [_ Hp]. repeat split; auto.
  intros ->. simpl in Hd.
  destruct Hd as [<-|[<-|[<-|[<-|[]]]]]; discriminate.
Qed.

(** C5: a [+] never continues straight (the direction it yields is
    perpendicular to the incoming one), and on the single-row fixture
    [fakeTurnMap], where the [+] has no perpendicular neighbour, the walk
    ends in the broken-path error, not the one-valid-direction error. *)
Theorem fake_turn_is_broken :
  (forall fuel, (4 <= fuel)%nat ->
     collectLettersAndPath fuel Maps.fakeTurnMap = Some (Throw BrokenPathError))
  /\ errorMessage BrokenPathError = "Path is broken or invalid."
  /\ (forall grid p d np nd,
        In d DIRECTIONS -> cell grid p = Some CHANGE_DIRECTION_CHAR ->
        findNextPosition grid p d = Return (Some (np, nd)) ->
        isPerpendicular d nd = true /\ nd <> d).
Proof.
  split; [|split].
  - intros fuel L. apply (collect_more_fuel 4); [|exact L].
    vm_compute. reflexivity.
  - reflexivity.
  - intros grid p d np nd Hd Hc Hf.
    destruct (turn_changes_axis _ _ _ _ _ Hd Hc Hf) as (H1 & H2 & _). now split.
Qed.

Lemma fake_turn_is_broken_witness :
  collectLettersAndPath 9 Maps.fakeTurnMap = Some (Throw BrokenPathError)
  /\ isPerpendicular (mkPosition 0 1) (mkPosition 1 0) = true.
Proof.
  split.
  - apply (proj1 fake_turn_is_broken 9%nat). lia.
  - refine (proj1 (proj2 (proj2 fake_turn_is_broken) Maps.basicExampleMap
                     (mkPosition 0 8) (mkPosition 0 1)
                     (mkPosition 1 8) (mkPosition 1 0) _ _ _)).
    + simpl. tauto.
    + reflexivity.
    + reflexivity.
Defined.

(** ** Initial direction (C6) *)

Lemma findInitialDirection_spec grid start :
  findInitialDirection grid start
  = match filter (validStep grid start) DIRECTIONS with
    | [d] => Return (Some d)
    | _ => Throw StartingPathError
    end.
Proof.
  unfold findInitialDirection. rewrite collectValidDirections_spec. reflexivity.
Qed.

(** C6: the initial direction is sought among all four of [DIRECTIONS]; a
    direction is a candidate iff the adjacent cell is in bounds and
    walkable; exactly one candidate is returned, and with any other number
    of candidates the walk fails with the starting-path error. *)
Theorem initial_direction_inference grid start :
  findInitialDirection grid start
  = match filter (validStep grid start) DIRECTIONS with
    | [d] => Return (Some d)
    | _ => Throw StartingPathError
    end
  /\ (forall dir, validStep grid start dir = true
                  <-> exists c, isWithinBounds grid (move start dir) = true
                                /\ cell grid (move start dir) = Some c
                                /\ isWalkable c = true)
  /\ errorMessage StartingPathError
     = "The map must contain exactly one starting path."
  /\ (findPosition grid STARTING_CHAR = Some start ->
      occurrences grid STARTING_CHAR = 1%nat ->
      occurrences grid ENDING_CHAR <> 0%nat ->
      List.length (filter (validStep grid start) DIRECTIONS) <> 1%nat ->
      forall fuel, collectLettersAndPath fuel grid = Some (Throw StartingPathError)).
Proof.
  split; [apply findInitialDirection_spec|]. split; [|split; [reflexivity|]].
  - intros dir. unfold validStep, walkableAt. split.
    + destruct (cell grid (move start dir)) as [c|] eqn:C; [|discriminate].
      intros W. exists c. repeat split; auto. apply isWithinBounds_cell. eauto.
    + intros (c & _ & C & W). now rewrite C.
  - intros Hs H1 He Hn fuel. unfold collectLettersAndPath. rewrite Hs.
    destruct (findPosition grid ENDING_CHAR) as [endPos|] eqn:Ee;
      [|apply findPosition_None in Ee; lia].
    destruct (hasMultipleOccurrences grid STARTING_CHAR) eqn:Em;
      [apply hasMultipleOccurrences_spec in Em; lia|].
    rewrite findInitialDirection_spec.
    destruct (filter (validStep grid start) DIRECTIONS) as [|d1 [|d2 l]];
      try reflexivity.
    simpl in Hn. lia.
Qed.

Lemma initial_direction_inference_witness :
  collectLettersAndPath 0 Maps.mapWithMultipleStartingPaths
  = Some (Throw StartingPathError).
Proof.
  refine (proj2 (proj2 (proj2 (initial_direction_inference
            Maps.mapWithMultipleStartingPaths (mkPosition 0 4)))) _ _ _ _ 0%nat).
  - reflexivity.
  - reflexivity.
  - vm_compute. discriminate.
  - vm_compute. discriminate.
Defined.

(** ** The states the loop goes through *)

(** What a successful resolver step guarantees. *)
Lemma findNextPosition_step grid p d np nd :
  In d DIRECTIONS ->
  findNextPosition grid p d = Return (Some (np, nd)) ->
  np = move p nd /\ walkableAt grid np = true /\ In nd DIRECTIONS
  /\ (nd = d \/ In nd (perpendicularCandidates d)).
Proof.
  intros Hd H.
  destruct (cell grid p) as [c|] eqn:C;
    [|unfold findNextPosition, readCell in H; rewrite C in H; discriminate].
  rewrite (findNextPosition_spec _ _ _ _ C) in H.
  assert (Turn : tryDirections grid p d (filterDirections d)
                 = Return (Some (np, nd)) ->
                 np = move p nd /\ walkableAt grid np = true /\ In nd DIRECTIONS
                 /\ (nd = d \/ In nd (perpendicularCandidates d))).
  { rewrite tryDirections_spec, filterDirections_cardinal by exact Hd.
    destruct (find _ _) as [dir|] eqn:Ef; [|discriminate].
    intros [= <- <-]. apply find_some in Ef as [Hin Hv].
    apply andb_prop in Hv as [_ Hv]. repeat split; auto.
    apply filter_In in Hin. tauto. }
  destruct (String.eqb c CHANGE_DIRECTION_CHAR).
  - destruct (_ <? _)%nat; [discriminate | auto].
  - destruct (cell grid (move p d)) as [c'|] eqn:C'.
    + destruct (isWalkable c') eqn:W; [|discriminate].
      injection H as <- <-. repeat split; auto.
      unfold walkableAt. now rewrite C'.
    + destruct (testUpper c); [auto | discriminate].
Qed.

Lemma findNextPosition_no_absent grid p d :
  isWithinBounds grid p = true -> findNextPosition grid p d <> Absent.
Proof.
  intros W. apply isWithinBounds_cell in W as [c C].
  rewrite (findNextPosition_spec _ _ _ _ C).
  destruct (String.eqb c CHANGE_DIRECTION_CHAR).
  - destruct (_ <? _)%nat; [discriminate|].
    rewrite tryDirections_spec. discriminate.
  - destruct (cell grid (move p d)) as [c'|].
    + destruct (isWalkable c'); discriminate.
    + destruct (testUpper c); [|discriminate].
      rewrite tryDirections_spec. discriminate.
Qed.

Lemma haveOneValidDirection_no_absent grid p d :
  isWithinBounds grid p = true -> haveOneValidDirection grid p d <> Absent.
Proof.
  intros W. apply isWithinBounds_cell in W as [c C].
  rewrite (haveOneValidDirection_spec _ _ _ _ C).
  destruct (negb _); [discriminate|]. destruct (_ <? _)%nat; discriminate.
Qed.

Lemma findInitialDirection_step grid start d :
  findInitialDirection grid start = Return (Some d) ->
  In d DIRECTIONS /\ walkableAt grid (move start d) = true.
Proof.
  rewrite findInitialDirection_spec.
  destruct (filter (validStep grid start) DIRECTIONS) as [|d1 [|d2 l]] eqn:E;
    try discriminate.
  intros [= ->].
  assert (H : In d (filter (validStep grid start) DIRECTIONS))
    by (rewrite E; now left).
  apply filter_In in H. exact H.
Qed.

Lemma findInitialDirection_no_absent grid start :
  findInitialDirection grid start <> Absent.
Proof.
  rewrite findInitialDirection_spec.
  destruct (filter _ _) as [|d1 [|d2 l]]; discriminate.
Qed.

(** Every state of the loop sits on a walkable cell of the grid and heads
    in one of the four directions. *)
Lemma visited_invariant fuel grid endPos p d :
  walkableAt grid p = true -> In d DIRECTIONS ->
  Forall (fun s => walkableAt grid (fst s) = true /\ In (snd s) DIRECTIONS)
         (visited fuel grid endPos p d).
Proof.
  revert p d. induction fuel as [|fuel IH]; intros p d W D; simpl; [constructor|].
  constructor; [now split|].
  destruct (samePosition p endPos); [constructor|].
  destruct (findNextPosition grid p d) as [[[np nd]|]| |] eqn:F; try constructor.
  apply findNextPosition_step in F as (_ & W' & D' & _); auto.
Qed.

Lemma visitedStates_invariant fuel grid :
  Forall (fun s => walkableAt grid (fst s) = true /\ In (snd s) DIRECTIONS)
         (visitedStates fuel grid).
Proof.
  unfold visitedStates.
  destruct (findPosition grid STARTING_CHAR) as [start|]; [|constructor].
  destruct (findPosition grid ENDING_CHAR) as [endPos|]; [|constructor].
  destruct (hasMultipleOccurrences grid STARTING_CHAR); [constructor|].
  destruct (findInitialDirection grid start) as [[d|]| |] eqn:E; try constructor.
  apply findInitialDirection_step in E as [D W].
  now apply visited_invariant.
Qed.

Lemma walkLoop_no_absent fuel grid endPos p d path letters location :
  walkableAt grid p = true -> In d DIRECTIONS ->
  walkLoop fuel grid endPos p d path letters location <> Some Absent.
Proof.
  revert p d path letters location.
  induction fuel as [|fuel IH]; intros p d path letters location W D; simpl;
    [discriminate|].
  apply walkableAt_in_bounds in W as B.
  pose proof (findNextPosition_no_absent grid p d B) as NA.
  apply isWithinBounds_cell in B as [c C]. unfold readCell. rewrite C.
  destruct (samePosition p endPos); [discriminate|].
  destruct (findNextPosition grid p d) as [[[np nd]|]| |] eqn:F;
    try discriminate; [|congruence].
  apply findNextPosition_step in F as (_ & W' & D' & _); auto.
Qed.

(** ** Reads stay inside the grid (C10) *)

Lemma collect_no_absent fuel grid :
  collectLettersAndPath fuel grid <> Some Absent.
Proof.
  unfold collectLettersAndPath.
  destruct (findPosition grid STARTING_CHAR) as [start|]; [|discriminate].
  destruct (findPosition grid ENDING_CHAR) as [endPos|]; [|discriminate].
  destruct (hasMultipleOccurrences grid STARTING_CHAR); [discriminate|].
  destruct (findInitialDirection grid start) as [[d|]| |] eqn:E; try discriminate.
  - apply findInitialDirection_step in E as [D W].
    now apply walkLoop_no_absent.
  - now apply findInitialDirection_no_absent in E.
Qed.

(** C10: no read of [grid[row][col]] misses.  The walk never ends in
    [Absent]; every position at which the loop body runs is within bounds
    (its row index is below the number of rows and its column index below
    the length of that row); and from a position within bounds neither [findNextPosition] nor
    [haveOneValidDirection] performs an absent read. *)
Theorem reads_stay_in_bounds :
  (forall fuel grid, collectLettersAndPath fuel grid <> Some Absent)
  /\ (forall fuel grid s,
        In s (visitedStates fuel grid) ->
        isWithinBounds grid (fst s) = true
        /\ 0 <= row (fst s) < Z.of_nat (List.length grid)
        /\ exists line, nthZ grid (row (fst s)) = Some line
                        /\ 0 <= col (fst s) < Z.of_nat (List.length line))
  /\ (forall grid p d,
        isWithinBounds grid p = true ->
        findNextPosition grid p d <> Absent
        /\ haveOneValidDirection grid p d <> Absent).
Proof.
  split; [exact collect_no_absent|]. split.
  - intros fuel grid s H.
    pose proof (visitedStates_invariant fuel grid) as F.
    rewrite Forall_forall in F. apply F in H as [W _].
    apply walkableAt_in_bounds in W. split; [exact W|].
    now apply isWithinBounds_bounds.
  - intros grid p d W. split.
    + now apply findNextPosition_no_absent.
    + now apply haveOneValidDirection_no_absent.
Qed.

Lemma reads_stay_in_bounds_witness :
  isWithinBounds Maps.basicExampleMap (mkPosition 0 1) = true
  /\ findNextPosition Maps.basicExampleMap (mkPosition 0 8) (mkPosition 0 1)
     <> Absent.
Proof.
  split.
  - refine (proj1 (proj1 (proj2 reads_stay_in_bounds) 40%nat Maps.basicExampleMap
                         (mkPosition 0 1, mkPosition 0 1) _)).
    vm_compute. tauto.
  - apply (proj2 (proj2 reads_stay_in_bounds) Maps.basicExampleMap
                 (mkPosition 0 8) (mkPosition 0 1)).
    reflexivity.
Defined.

(** ** No reversal (C8) *)

Lemma visited_head fuel grid endPos p d s :
  nth_error (visited fuel grid endPos p d) 0 = Some s -> s = (p, d).
Proof. destruct fuel; simpl; congruence. Qed.

Lemma visited_consecutive fuel grid endPos p d i s1 s2 :
  nth_error (visited fuel grid endPos p d) i = Some s1 ->
  nth_error (visited fuel grid endPos p d) (S i) = Some s2 ->
  findNextPosition grid (fst s1) (snd s1) = Return (Some s2).
Proof.
  revert p d i. induction fuel as [|fuel IH]; intros p d i; simpl.
  - destruct i; discriminate.
  - destruct (samePosition p endPos); [destruct i; discriminate|].
    destruct (findNextPosition grid p d) as [[[np nd]|]| |] eqn:F;
      try (destruct i; discriminate).
    destruct i as [|i].
    + intros [= <-] H. apply visited_head in H. subst. exact F.
    + simpl. apply IH.
Qed.

Lemma turn_or_straight_not_reverse (d nd : Direction) :
  In d DIRECTIONS -> nd = d \/ In nd (perpendicularCandidates d) ->
  nd <> opposite d /\ (nd = d \/ isPerpendicular d nd = true).
Proof.
  intros Hd. simpl in Hd.
  destruct Hd as [<-|[<-|[<-|[<-|[]]]]]; simpl;
    (intros [->|[<-|[<-|[]]]]; split; try discriminate; auto).
Qed.

(** C8: two consecutive states of a walk (successful or not, so in
    particular of every successful one) are linked by the resolver, and the
    direction it returns is the previous one or a perpendicular one, never
    the opposite. *)
Theorem no_reversal fuel grid i s1 s2 :
  nth_error (visitedStates fuel grid) i = Some s1 ->
  nth_error (visitedStates fuel grid) (S i) = Some s2 ->
  findNextPosition grid (fst s1) (snd s1) = Return (Some s2)
  /\ snd s2 <> opposite (snd s1)
  /\ (snd s2 = snd s1 \/ isPerpendicular (snd s1) (snd s2) = true).
Proof.
  intros H1 H2.
  assert (D : In (snd s1) DIRECTIONS).
  { pose proof (visitedStates_invariant fuel grid) as F.
    rewrite Forall_forall in F. apply nth_error_In in H1. now apply F in H1. }
  assert (F : findNextPosition grid (fst s1) (snd s1) = Return (Some s2)).
  { unfold visitedStates in *.
    destruct (findPosition grid STARTING_CHAR) as [start|];
      [|destruct i; discriminate].
    destruct (findPosition grid ENDING_CHAR) as [endPos|];
      [|destruct i; discriminate].
    destruct (hasMultipleOccurrences grid STARTING_CHAR);
      [destruct i; discriminate|].
    destruct (findInitialDirection grid start) as [[d|]| |];
      try (destruct i; discriminate).
    eapply visited_consecutive; eauto. }
  split; [exact F|].
  destruct s2 as [np nd]. apply findNextPosition_step in F as (_ & _ & _ & T); auto.
  now apply turn_or_straight_not_reverse.
Qed.

Lemma no_reversal_witness :
  mkPosition 1 0 <> opposite (mkPosition 0 1).
Proof.
  refine (proj1 (proj2 (no_reversal 40 Maps.basicExampleMap 7
            (mkPosition 0 8, mkPosition 0 1) (mkPosition 1 8, mkPosition 1 0)
            _ _))).
  - vm_compute. reflexivity.
  - vm_compute. reflexivity.
Defined.

(** ** Strings and [join] *)

Lemma append_nil_r (s : string) : (s ++ EmptyString)%string = s.
Proof. induction s; simpl; congruence. Qed.

Lemma append_assoc (a b c : string) : ((a ++ b) ++ c = a ++ (b ++ c))%string.
Proof. induction a; simpl; congruence. Qed.

Lemma length_append (a b : string) :
  String.length (a ++ b) = (String.length a + String.length b)%nat.
Proof. induction a; simpl; congruence. Qed.

Lemma join_cons (x : string) (l : list string) :
  join (x :: l) = (x ++ join l)%string.
Proof.
  unfold join. destruct l; simpl; [now rewrite append_nil_r | reflexivity].
Qed.

Lemma join_app (l1 l2 : list string) :
  join (l1 ++ l2) = (join l1 ++ join l2)%string.
Proof.
  induction l1 as [|x l1 IH]; [reflexivity|].
  rewrite <- app_comm_cons, !join_cons, IH. now rewrite append_assoc.
Qed.

Lemma join_single_chars (l : list string) :
  Forall (fun s => String.length s = 1%nat) l ->
  String.length (join l) = List.length l.
Proof.
  induction 1 as [|x l Hx _ IH]; [reflexivity|].
  rewrite join_cons, length_append, Hx, IH. reflexivity.
Qed.

(** ** Letters are collected once per position (C7) *)

Lemma isLocationAlreadyUsed_In location p :
  isLocationAlreadyUsed location p = true <-> In p location.
Proof.
  unfold isLocationAlreadyUsed. rewrite existsb_exists. split.
  - intros (q & Hin & H). apply andb_prop in H as [H1 H2].
    apply Z.eqb_eq in H1, H2. destruct p, q; simpl in *. now subst.
  - intros H. exists p. now rewrite !Z.eqb_refl.
Qed.

Lemma firstVisitsFrom_In seen l p :
  In p (firstVisitsFrom seen l) <-> In p l /\ ~ In p seen.
Proof.
  revert seen. induction l as [|q l IH]; intros seen; simpl; [tauto|].
  destruct (in_dec Position_eq_dec q seen) as [Hq|Hq]; simpl; rewrite IH.
  - split; [tauto|]. intros [[<-|H] N]; tauto.
  - rewrite in_app_iff. simpl.
    destruct (Position_eq_dec q p) as [<-|Ne]; [tauto|]. tauto.
Qed.

Lemma firstVisitsFrom_NoDup seen l : NoDup (firstVisitsFrom seen l).
Proof.
  revert seen. induction l as [|q l IH]; intros seen; simpl; [constructor|].
  destruct (in_dec Position_eq_dec q seen); [apply IH|].
  constructor; [|apply IH].
  rewrite firstVisitsFrom_In, in_app_iff. simpl. tauto.
Qed.

Lemma firstVisitsFrom_app seen l1 l2 :
  firstVisitsFrom seen (l1 ++ l2)
  = firstVisitsFrom seen l1
    ++ firstVisitsFrom (seen ++ firstVisitsFrom seen l1) l2.
Proof.
  revert seen. induction l1 as [|q l1 IH]; intros seen; simpl.
  - now rewrite app_nil_r.
  - destruct (in_dec Position_eq_dec q seen); [apply IH|].
    rewrite IH. simpl. now rewrite <- app_assoc.
Qed.

(** The entry of a position stands where its first visit falls. *)
Lemma firstVisits_first_occurrence l1 p l2 :
  ~ In p l1 ->
  exists rest, firstVisits (l1 ++ p :: l2) = firstVisits l1 ++ p :: rest.
Proof.
  intros N. unfold firstVisits. rewrite firstVisitsFrom_app. simpl.
  destruct (in_dec Position_eq_dec p (firstVisitsFrom [] l1)) as [H|H].
  - apply firstVisitsFrom_In in H. tauto.
  - eauto.
Qed.

Lemma readCell_cellAt grid p c : readCell grid p = Return c -> cellAt grid p = c.
Proof.
  intros H. apply readCell_Return in H. unfold cellAt. now rewrite H.
Qed.

(** The result of the loop in terms of the states it went through. *)
Lemma walkLoop_trace fuel grid endPos p d pathAcc lettersAcc location r :
  walkLoop fuel grid endPos p d pathAcc lettersAcc location = Some (Return r) ->
  let tr := map fst (visited fuel grid endPos p d) in
  path r = join (pathAcc ++ map (cellAt grid) tr)
  /\ letters r
     = join (lettersAcc
             ++ map (cellAt grid)
                    (firstVisitsFrom location (filter (isLetterAt grid) tr)))
  /\ exists tr', tr = tr' ++ [endPos].
Proof.
  revert p d pathAcc lettersAcc location.
  induction fuel as [|fuel IH]; intros p d pathAcc lettersAcc location; simpl;
    [discriminate|].
  destruct (readCell grid p) as [c| |] eqn:R; try discriminate.
  apply readCell_cellAt in R. unfold isLetterAt at 1. rewrite R.
  assert (Letters :
    forall rest,
      (if testUpper c && negb (isLocationAlreadyUsed location p)
       then lettersAcc ++ [c] else lettersAcc)
      ++ map (cellAt grid)
             (firstVisitsFrom
                (if testUpper c && negb (isLocationAlreadyUsed location p)
                 then location ++ [p] else location)
                (filter (isLetterAt grid) rest))
      = lettersAcc
        ++ map (cellAt grid)
               (firstVisitsFrom location
                  (if testUpper c then p :: filter (isLetterAt grid) rest
                   else filter (isLetterAt grid) rest))).
  { intros rest. destruct (testUpper c); simpl; [|reflexivity].
    destruct (in_dec Position_eq_dec p location) as [Hin|Hin].
    - apply isLocationAlreadyUsed_In in Hin. now rewrite Hin.
    - destruct (isLocationAlreadyUsed location p) eqn:U;
        [apply isLocationAlreadyUsed_In in U; contradiction|].
      simpl. rewrite R, <- app_assoc. reflexivity. }
  destruct (samePosition p endPos) eqn:S.
  - intros [= <-]. simpl. apply samePosition_true in S. subst p.
    rewrite ?R. split; [reflexivity|]. split.
    + specialize (Letters []). simpl in Letters. now rewrite <- Letters, app_nil_r.
    + exists []. reflexivity.
  - destruct (findNextPosition grid p d) as [[[np nd]|]| |] eqn:F; try discriminate.
    intros H. apply IH in H as (Hp & Hl & tr' & Ht). simpl.
    rewrite ?R. split; [|split].
    + now rewrite Hp, <- app_assoc.
    + now rewrite Hl, Letters.
    + exists (p :: tr'). simpl. now rewrite Ht.
Qed.

(** A successful call is a successful loop from the first cell after the
    start marker. *)
Lemma collect_success fuel grid r :
  collectLettersAndPath fuel grid = Some (Return r) ->
  exists start endPos dir,
    findPosition grid ENDING_CHAR = Some endPos
    /\ visitedStates fuel grid = visited fuel grid endPos (move start dir) dir
    /\ walkLoop fuel grid endPos (move start dir) dir [STARTING_CHAR] [] []
       = Some (Return r).
Proof.
  unfold collectLettersAndPath, visitedStates.
  destruct (findPosition grid STARTING_CHAR) as [start|]; [|discriminate].
  destruct (findPosition grid ENDING_CHAR) as [endPos|]; [|discriminate].
  destruct (hasMultipleOccurrences grid STARTING_CHAR); [discriminate|].
  destruct (findInitialDirection grid start) as [[dir|]| |]; try discriminate.
  intros H. exists start, endPos, dir. auto.
Qed.

Lemma nthZ_In {A : Type} (l : list A) (i : Z) (a : A) : nthZ l i = Some a -> In a l.
Proof.
  unfold nthZ. destruct (i <? 0); [discriminate|]. apply nth_error_In.
Qed.

Lemma walkable_single_char grid p :
  singleCharCells grid -> walkableAt grid p = true ->
  String.length (cellAt grid p) = 1%nat.
Proof.
  unfold singleCharCells, walkableAt, cellAt, cell. intros S W.
  destruct (nthZ grid (row p)) as [r|] eqn:Er; [|discriminate].
  destruct (nthZ r (col p)) as [c|] eqn:Ec; [|discriminate].
  apply nthZ_In in Er, Ec. rewrite Forall_forall in S. apply S in Er.
  rewrite Forall_forall in Er. apply Er in Ec.
  destruct c as [|a c]; [discriminate|]. simpl in *. lia.
Qed.

(** C7: on a successful walk, [path] joins the start marker and the cell of
    every visit, while [letters] joins the cells of the letter positions
    kept at their first visit only: a letter position visited several times
    has exactly one entry there, standing where its first visit falls, and
    the key is the position, so two positions with the same letter both
    count.  On grids of single characters each entry is one character. *)
Theorem letter_dedup fuel grid r :
  collectLettersAndPath fuel grid = Some (Return r) ->
  let tr := visitedPositions fuel grid in
  let visits := filter (isLetterAt grid) tr in
  path r = join (STARTING_CHAR :: map (cellAt grid) tr)
  /\ letters r = join (map (cellAt grid) (firstVisits visits))
  /\ (forall p, In p visits ->
                count_occ Position_eq_dec (firstVisits visits) p = 1%nat)
  /\ (forall l1 p l2, visits = l1 ++ p :: l2 -> ~ In p l1 ->
                      exists rest, firstVisits visits = firstVisits l1 ++ p :: rest)
  /\ (singleCharCells grid ->
      String.length (path r) = S (List.length tr)
      /\ String.length (letters r) = List.length (firstVisits visits)).
Proof.
  intros H tr visits.
  destruct (collect_success _ _ _ H) as (start & endPos & dir & _ & Ev & Hw).
  apply walkLoop_trace in Hw as (Hp & Hl & _). rewrite <- Ev in Hp, Hl.
  fold (visitedPositions fuel grid) in Hp, Hl. fold tr in Hp, Hl.
  fold visits in Hl. simpl in Hp, Hl. fold (firstVisits visits) in Hl.
  split; [exact Hp|]. split; [exact Hl|]. split; [|split].
  - intros p Hin.
    apply (proj1 (NoDup_count_occ' Position_eq_dec (firstVisits visits))).
    + apply firstVisitsFrom_NoDup.
    + apply firstVisitsFrom_In. auto.
  - intros l1 p l2 -> N. now apply firstVisits_first_occurrence.
  - intros S.
    assert (A : Forall (fun p => String.length (cellAt grid p) = 1%nat) tr).
    { apply Forall_forall. intros p Hin. apply walkable_single_char; [exact S|].
      unfold tr, visitedPositions in Hin. apply in_map_iff in Hin as (s & <- & Hs).
      pose proof (visitedStates_invariant fuel grid) as F.
      rewrite Forall_forall in F. now apply F in Hs. }
    split.
    + rewrite Hp, join_cons, length_append, join_single_chars.
      * now rewrite length_map.
      * apply Forall_map. exact A.
    + rewrite Hl, join_single_chars; [now rewrite length_map|].
      apply Forall_map. rewrite Forall_forall in *. intros p Hin. apply A.
      apply firstVisitsFrom_In in Hin as [Hin _].
      apply filter_In in Hin. tauto.
Qed.

Lemma letter_dedup_witness :
  count_occ Position_eq_dec
    (firstVisits
       (filter (isLetterAt Maps.doNotCollectLetterFromSameLocationTwiceMap)
          (visitedPositions 60 Maps.doNotCollectLetterFromSameLocationTwiceMap)))
    (mkPosition 3 4) = 1%nat
  /\ count_occ Position_eq_dec
       (visitedPositions 60 Maps.doNotCollectLetterFromSameLocationTwiceMap)
       (mkPosition 3 4) = 2%nat.
Proof.
  split.
  - refine (proj1 (proj2 (proj2 (letter_dedup 60
              Maps.doNotCollectLetterFromSameLocationTwiceMap
              (mkResult "GOONIES" "@-G-O-+|+-+|O||+-O-N-+|I|+-+|+-I-+|ES|x") _)))
              (mkPosition 3 4) _).
    + vm_compute. reflexivity.
    + vm_compute. tauto.
  - vm_compute. reflexivity.
Defined.

(** ** The ends of the path (C9) *)

(** C9: on a successful walk the path string starts with the start marker
    and ends with the end marker; so it is not empty, its first character
    is [@] and its last character is [x]. *)
Theorem path_endpoints fuel grid r :
  collectLettersAndPath fuel grid = Some (Return r) ->
  (exists mid, path r = (STARTING_CHAR ++ mid ++ ENDING_CHAR)%string)
  /\ path r <> EmptyString
  /\ String.get 0 (path r) = Some "@"%char
  /\ String.get (String.length (path r) - 1) (path r) = Some "x"%char.
Proof.
  intros H.
  destruct (collect_success _ _ _ H) as (start & endPos & dir & Ee & _ & Hw).
  apply walkLoop_trace in Hw as (Hp & _ & tr' & Ht).
  rewrite Ht in Hp. simpl in Hp. rewrite join_cons, map_app, join_app in Hp.
  simpl in Hp. apply findPosition_cell in Ee.
  assert (Ec : cellAt grid endPos = ENDING_CHAR) by (unfold cellAt; now rewrite Ee).
  rewrite Ec in Hp. change (join [ENDING_CHAR]) with ENDING_CHAR in Hp.
  set (mid := join (map (cellAt grid) tr')) in Hp.
  assert (Hp' : path r = (STARTING_CHAR ++ mid ++ ENDING_CHAR)%string) by exact Hp.
  split; [exists mid; exact Hp'|].
  rewrite Hp'. split; [discriminate|]. split; [reflexivity|].
  rewrite <- append_assoc.
  rewrite (length_append (STARTING_CHAR ++ mid) ENDING_CHAR).
  replace (String.length (STARTING_CHAR ++ mid) + String.length ENDING_CHAR - 1)%nat
    with (0 + String.length (STARTING_CHAR ++ mid))%nat by (simpl; lia).
  now rewrite <- append_correct2.
Qed.

Lemma path_endpoints_witness :
  String.get 0 "@-A-+x" = Some "@"%char.
Proof.
  refine (proj1 (proj2 (proj2 (path_endpoints 10
            [ ["@"; "-"; "A"; "-"; "+"]; [" "; " "; "|"; " "; "x"] ]
            (mkResult "A" "@-A-+x") _)))).
  vm_compute. reflexivity.
Defined.

(** ** Termination (C2) *)

Lemma walkLoop_out_of_fuel n grid endPos p d path letters location :
  walkLoop n grid endPos p d path letters location = None
  <-> exists s, iterate n grid endPos (p, d) = Some s.
Proof.
  revert p d path letters location.
  induction n as [|n IH]; intros p d path letters location; simpl.
  - split; eauto.
  - unfold advance. simpl.
    destruct (readCell grid p) as [c| |];
      try (split; [discriminate | intros [s H]; discriminate]).
    destruct (samePosition p endPos);
      [split; [discriminate | intros [s H]; discriminate]|].
    destruct (findNextPosition grid p d) as [[[np nd]|]| |];
      try (split; [discriminate | intros [s H]; discriminate]).
    apply IH.
Qed.

Lemma iterate_add a b grid endPos s :
  iterate (a + b) grid endPos s
  = match iterate a grid endPos s with
    | Some s' => iterate b grid endPos s'
    | None => None
    end.
Proof.
  revert s. induction a as [|a IH]; intros s; simpl; [reflexivity|].
  destruct (advance grid endPos s); [apply IH | reflexivity].
Qed.

Lemma iterate_prefix a b grid endPos s t :
  iterate (a + b) grid endPos s = Some t ->
  exists u, iterate a grid endPos s = Some u.
Proof.
  rewrite iterate_add. destruct (iterate a grid endPos s); [eauto | discriminate].
Qed.

(** A state that comes back to itself is never left. *)
Lemma iterate_cycle k grid endPos s :
  (0 < k)%nat -> iterate k grid endPos s = Some s ->
  forall n, exists t, iterate n grid endPos s = Some t.
Proof.
  intros K C n. induction n as [n IH] using lt_wf_ind.
  destruct (Nat.lt_ge_cases n k) as [L|L].
  - replace k with (n + (k - n))%nat in C by lia.
    now apply iterate_prefix in C.
  - replace n with (k + (n - k))%nat by lia.
    rewrite iterate_add, C. apply IH. lia.
Qed.

Lemma iterate_eventually_cyclic i k grid endPos s0 s :
  (0 < k)%nat -> iterate i grid endPos s0 = Some s ->
  iterate (i + k) grid endPos s0 = Some s ->
  forall n, exists t, iterate n grid endPos s0 = Some t.
Proof.
  intros K I C n. rewrite iterate_add, I in C.
  destruct (Nat.lt_ge_cases n i) as [L|L].
  - replace i with (n + (i - n))%nat in I by lia.
    now apply iterate_prefix in I.
  - replace n with (i + (n - i))%nat by lia.
    rewrite iterate_add, I. now apply (iterate_cycle k).
Qed.

Lemma loopMap_never_returns fuel : collectLettersAndPath fuel loopMap = None.
Proof.
  change (collectLettersAndPath fuel loopMap)
    with (walkLoop fuel loopMap (mkPosition 2 0) (mkPosition 0 1) (mkPosition 0 1)
                   [STARTING_CHAR] [] []).
  apply walkLoop_out_of_fuel.
  apply (iterate_eventually_cyclic 2 8 _ _ _ (mkPosition 1 2, mkPosition 1 0)).
  - lia.
  - vm_compute. reflexivity.
  - vm_compute. reflexivity.
Qed.

Example loopMap_round :
  visitedPositions 11 loopMap
  = [ mkPosition 0 1; mkPosition 0 2; mkPosition 1 2; mkPosition 2 2;
      mkPosition 2 3; mkPosition 2 4; mkPosition 1 4; mkPosition 0 4;
      mkPosition 0 3; mkPosition 0 2; mkPosition 1 2 ].
Proof. vm_compute. reflexivity. Qed.

(** *** Counting the states *)

Lemma rowPositions_length r c line :
  List.length (rowPositions r c line) = List.length line.
Proof. revert c. induction line; intros c; simpl; auto. Qed.

Lemma gridPositions_length r grid :
  List.length (gridPositions r grid) = cellCount grid.
Proof.
  unfold cellCount. revert r. induction grid as [|line grid IH]; intros r; simpl.
  - reflexivity.
  - now rewrite !length_app, rowPositions_length, IH.
Qed.

Lemma allStates_length grid : List.length (allStates grid) = (cellCount grid * 4)%nat.
Proof.
  unfold allStates, State. now rewrite length_prod, gridPositions_length.
Qed.

Lemma nthZ_cons_pos {A : Type} (x : A) (l : list A) (i : Z) (a : A) :
  nthZ (x :: l) i = Some a -> i = 0 \/ (0 < i /\ nthZ l (i - 1) = Some a).
Proof.
  intros H. apply nthZ_Some in H as R.
  destruct (Z.eq_dec i 0) as [->|N]; [now left|]. right. split; [lia|].
  replace i with ((i - 1) + 1) in H by lia.
  now rewrite nthZ_cons_succ in H by lia.
Qed.

Lemma rowPositions_In r c0 line j a :
  nthZ line j = Some a -> In (mkPosition r (c0 + j)) (rowPositions r c0 line).
Proof.
  revert c0 j. induction line as [|x line IH]; intros c0 j H.
  - apply nthZ_Some in H. simpl in H. lia.
  - simpl. apply nthZ_cons_pos in H as [->|[P H]].
    + left. now rewrite Z.add_0_r.
    + right. replace (c0 + j) with ((c0 + 1) + (j - 1)) by lia. now apply IH.
Qed.

Lemma gridPositions_In r0 grid i j line a :
  nthZ grid i = Some line -> nthZ line j = Some a ->
  In (mkPosition (r0 + i) j) (gridPositions r0 grid).
Proof.
  revert r0 i. induction grid as [|x grid IH]; intros r0 i H Hj.
  - apply nthZ_Some in H. simpl in H. lia.
  - simpl. apply in_or_app. pose proof H as H0.
    apply nthZ_cons_pos in H as [->|[P H]].
    + left. rewrite Z.add_0_r. injection H0 as ->.
      now apply (rowPositions_In r0 0 line j a).
    + right. replace (r0 + i) with ((r0 + 1) + (i - 1)) by lia. now apply IH.
Qed.

Lemma allStates_In grid p d :
  walkableAt grid p = true -> In d DIRECTIONS -> In (p, d) (allStates grid).
Proof.
  intros W D. unfold allStates. apply in_prod; [|exact D].
  unfold walkableAt, cell in W.
  destruct (nthZ grid (row p)) as [line|] eqn:Er; [|discriminate].
  destruct (nthZ line (col p)) as [a|] eqn:Ec; [|discriminate].
  destruct p as [r c]. apply (gridPositions_In 0 grid r c line a); assumption.
Qed.



(** *** Pigeonhole *)







(** *** The loop with the array limit *)

(** The loop with the limit does what the loop without it does, unless the
    engine stops it first. *)
Lemma walkLoopWithin_follows capacity fuel grid endPos p d pathAcc lettersAcc location :
  match walkLoopWithin capacity fuel grid endPos p d pathAcc lettersAcc location with
  | Some (Ends o) =>
      walkLoop fuel grid endPos p d pathAcc lettersAcc location = Some o
  | Some RangeError => True
  | None => walkLoop fuel grid endPos p d pathAcc lettersAcc location = None
  end.
Proof.
  revert p d pathAcc lettersAcc location.
  induction fuel as [|fuel IH]; intros p d pathAcc lettersAcc location; simpl;
    [reflexivity|].
  destruct (readCell grid p) as [c| |]; try reflexivity.
  destruct (capacity <=? List.length pathAcc)%nat; [exact I|].
  destruct (testUpper c && negb (isLocationAlreadyUsed location p)); simpl.
  - destruct ((capacity <=? List.length lettersAcc)%nat
              || (capacity <=? List.length location)%nat); [exact I|].
    destruct (samePosition p endPos); [reflexivity|].
    destruct (findNextPosition grid p d) as [[[np nd]|]| |]; try reflexivity.
    apply IH.
  - destruct (samePosition p endPos); [reflexivity|].
    destruct (findNextPosition grid p d) as [[[np nd]|]| |]; try reflexivity.
    apply IH.
Qed.


(** With the limit the loop always ends: at the latest when [path] is
    full. *)
Lemma walkLoopWithin_ends capacity fuel grid endPos p d pathAcc lettersAcc location :
  (capacity < fuel + List.length pathAcc)%nat -> (0 < fuel)%nat ->
  exists e,
    walkLoopWithin capacity fuel grid endPos p d pathAcc lettersAcc location
    = Some e.
Proof.
  revert p d pathAcc lettersAcc location.
  induction fuel as [|fuel IH]; intros p d pathAcc lettersAcc location L F; [lia|].
  simpl. destruct (readCell grid p) as [c| |]; eauto.
  destruct (Nat.leb_spec capacity (List.length pathAcc)); [eauto|].
  destruct (_ && (_ || _)); [eauto|].
  destruct (samePosition p endPos); [eauto|].
  destruct (findNextPosition grid p d) as [[[np nd]|]| |]; eauto.
  apply IH; rewrite ?length_app; simpl; lia.
Qed.


Lemma collectWithin_follows capacity fuel grid :
  match collectLettersAndPathWithin capacity fuel grid with
  | Some (Ends o) => collectLettersAndPath fuel grid = Some o
  | Some RangeError => True
  | None => collectLettersAndPath fuel grid = None
  end.
Proof.
  unfold collectLettersAndPathWithin, collectLettersAndPath.
  destruct (findPosition grid STARTING_CHAR) as [start|]; [|reflexivity].
  destruct (findPosition grid ENDING_CHAR) as [endPos|]; [|reflexivity].
  destruct (hasMultipleOccurrences grid STARTING_CHAR); [reflexivity|].
  destruct (findInitialDirection grid start) as [[dir|]| |]; try reflexivity.
  apply walkLoopWithin_follows.
Qed.

Lemma collectWithin_code_outcome capacity fuel grid o :
  collectLettersAndPathWithin capacity fuel grid = Some (Ends o) ->
  collectLettersAndPath fuel grid = Some o.
Proof.
  intros H. pose proof (collectWithin_follows capacity fuel grid) as F.
  now rewrite H in F.
Qed.


Lemma collectWithin_ends capacity fuel grid :
  (capacity < fuel)%nat ->
  exists e, collectLettersAndPathWithin capacity fuel grid = Some e.
Proof.
  intros L. unfold collectLettersAndPathWithin.
  destruct (findPosition grid STARTING_CHAR); eauto.
  destruct (findPosition grid ENDING_CHAR); eauto.
  destruct (hasMultipleOccurrences grid STARTING_CHAR); eauto.
  destruct (findInitialDirection grid p) as [[dir|]| |]; eauto.
  apply walkLoopWithin_ends; simpl; lia.
Qed.


(** * Further properties of the primitives and of the walker *)

(** ** The scans: [findPosition] and [hasMultipleOccurrences] *)

Lemma nthZ_head {A : Type} (x : A) (l : list A) (a : A) :
  nthZ (x :: l) 0 = Some a -> x = a.
Proof. unfold nthZ. simpl. congruence. Qed.

Lemma findInRow_None_nth r char c0 j :
  findInRow r char c0 = None -> nthZ r j <> Some char.
Proof.
  revert c0 j. induction r as [|s r IH]; intros c0 j; simpl.
  - intros _ H. apply nthZ_Some in H. simpl in H. lia.
  - destruct (String.eqb_spec s char) as [->|N]; [discriminate|].
    intros F H. apply nthZ_cons_pos in H as H'. destruct H' as [->|[_ H']].
    + apply nthZ_head in H. contradiction.
    + exact (IH _ _ F H').
Qed.

Lemma findInRow_Some_before r char c0 k j :
  findInRow r char c0 = Some k -> c0 + j < k -> nthZ r j <> Some char.
Proof.
  revert c0 j. induction r as [|s r IH]; intros c0 j; simpl; [discriminate|].
  destruct (String.eqb_spec s char) as [->|N].
  - intros [= <-] L H. apply nthZ_Some in H. lia.
  - intros F L H. apply nthZ_cons_pos in H as H'. destruct H' as [->|[_ H']].
    + apply nthZ_head in H. contradiction.
    + apply (IH (c0 + 1) (j - 1) F); [lia | exact H'].
Qed.

Lemma findPositionFrom_None_nth grid char r0 i j line :
  findPositionFrom grid char r0 = None ->
  nthZ grid i = Some line -> nthZ line j <> Some char.
Proof.
  revert r0 i. induction grid as [|l grid IH]; intros r0 i; simpl.
  - intros _ H. apply nthZ_Some in H. simpl in H. lia.
  - destruct (findInRow l char 0) eqn:E; [discriminate|].
    intros F H. apply nthZ_cons_pos in H as H'. destruct H' as [->|[_ H']].
    + apply nthZ_head in H. subst. now apply (findInRow_None_nth _ _ 0).
    + exact (IH _ _ F H').
Qed.

Lemma findPositionFrom_Some_before grid char r0 p i j line :
  findPositionFrom grid char r0 = Some p ->
  nthZ grid i = Some line ->
  r0 + i < row p \/ (r0 + i = row p /\ j < col p) ->
  nthZ line j <> Some char.
Proof.
  revert r0 i. induction grid as [|l grid IH]; intros r0 i; simpl; [discriminate|].
  destruct (findInRow l char 0) as [k|] eqn:E.
  - intros [= <-] H B. simpl in B. apply nthZ_Some in H as R.
    destruct B as [B|[B1 B2]]; [lia|].
    assert (i = 0) by lia. subst i. apply nthZ_head in H. subst.
    apply (findInRow_Some_before _ _ 0 k); [exact E | lia].
  - intros F H B. apply nthZ_cons_pos in H as H'. destruct H' as [->|[_ H']].
    + apply nthZ_head in H. subst. now apply (findInRow_None_nth _ _ 0).
    + apply (IH (r0 + 1) (i - 1) F H'). lia.
Qed.

(** X1: [findPosition] returns the first cell equal to [char] in the order
    of its scan (rows top to bottom, columns left to right): the cell it
    returns holds [char] and no cell before it does; it returns [null]
    exactly when no cell holds [char]. *)
Theorem findPosition_first_occurrence grid char :
  (findPosition grid char = None <-> forall q, cell grid q <> Some char)
  /\ (forall p, findPosition grid char = Some p ->
                cell grid p = Some char
                /\ forall q, rowMajorBefore q p -> cell grid q <> Some char).
Proof.
  split.
  - split.
    + intros F q H. unfold cell in H.
      destruct (nthZ grid (row q)) as [line|] eqn:E; [|discriminate].
      exact (findPositionFrom_None_nth _ _ _ _ _ _ F E H).
    + intros H. destruct (findPosition grid char) as [p|] eqn:F; [|reflexivity].
      apply findPosition_cell in F. now apply H in F.
  - intros p F. split; [now apply findPosition_cell|].
    intros q B H. unfold cell in H.
    destruct (nthZ grid (row q)) as [line|] eqn:E; [|discriminate].
    apply (findPositionFrom_Some_before _ _ 0 p (row q) (col q) _ F E); [|exact H].
    unfold rowMajorBefore in B. lia.
Qed.

Lemma findPosition_first_occurrence_witness :
  cell Maps.mapWithMultipleStartingPaths (mkPosition 0 0) = Some ENDING_CHAR.
Proof.
  refine (proj1 (proj2 (findPosition_first_occurrence
            Maps.mapWithMultipleStartingPaths ENDING_CHAR) (mkPosition 0 0) _)).
  reflexivity.
Defined.

(** X2: the two scans agree with the number of cells equal to the target:
    [hasMultipleOccurrences] answers [true] exactly when there are two or
    more, [findPosition] answers [null] exactly when there is none; so a
    grid with several occurrences always has a position found. *)
Theorem scans_count_occurrences grid target :
  (hasMultipleOccurrences grid target = true <-> (2 <= occurrences grid target)%nat)
  /\ (findPosition grid target = None <-> occurrences grid target = 0%nat)
  /\ (hasMultipleOccurrences grid target = true ->
      findPosition grid target <> None).
Proof.
  split; [apply hasMultipleOccurrences_spec|].
  split; [apply findPosition_None|].
  intros H F. apply hasMultipleOccurrences_spec in H.
  apply findPosition_None in F. lia.
Qed.

Lemma scans_count_occurrences_witness :
  findPosition Maps.multipleStart3Map STARTING_CHAR <> None.
Proof.
  refine (proj2 (proj2 (scans_count_occurrences
            Maps.multipleStart3Map STARTING_CHAR)) _).
  reflexivity.
Defined.

(** ** Bounds *)

(** X3: [isWithinBounds] holds exactly of the positions at which
    [grid[row][col]] finds a cell: the row index is non-negative and below
    the number of rows, and the column index is non-negative and below the
    length of that very row (so on a ragged grid a column may be inside one
    row and outside a shorter one). *)
Theorem isWithinBounds_iff_cell grid p :
  (isWithinBounds grid p = true <-> exists c, cell grid p = Some c)
  /\ (isWithinBounds grid p = true
      <-> 0 <= row p < Z.of_nat (List.length grid)
          /\ exists line, nth_error grid (Z.to_nat (row p)) = Some line
                          /\ 0 <= col p < Z.of_nat (List.length line)).
Proof.
  split; [apply isWithinBounds_cell|]. split.
  - intros H. apply isWithinBounds_bounds in H as (R & line & E & C).
    split; [exact R|]. exists line. split; [|exact C].
    unfold nthZ in E. destruct (Z.ltb_spec (row p) 0); [lia | exact E].
  - intros (R & line & E & C). apply isWithinBounds_cell.
    unfold cell, nthZ. destruct (Z.ltb_spec (row p) 0); [lia|]. rewrite E.
    destruct (Z.ltb_spec (col p) 0); [lia|].
    destruct (nth_error line (Z.to_nat (col p))) as [c|] eqn:N; [eauto|].
    apply nth_error_None in N. lia.
Qed.

Lemma isWithinBounds_iff_cell_witness :
  isWithinBounds Maps.brokenPathMap (mkPosition 3 9) = true
  /\ isWithinBounds Maps.brokenPathMap (mkPosition 2 9) = false.
Proof.
  split.
  - apply (proj2 (proj1 (isWithinBounds_iff_cell Maps.brokenPathMap (mkPosition 3 9)))).
    exists "x". reflexivity.
  - reflexivity.
Defined.

(** ** [filterDirections] *)

(** X4: for each of the four directions, [filterDirections] returns exactly
    the directions of [DIRECTIONS] perpendicular to it: two of them, neither
    the direction itself nor its opposite.  The test against the reverse
    direction in the loops of [findNextPosition] therefore never rejects a
    candidate. *)
Theorem filterDirections_perpendicular d :
  In d DIRECTIONS ->
  List.length (filterDirections d) = 2%nat
  /\ (forall dir, In dir (filterDirections d)
                  <-> In dir DIRECTIONS /\ isPerpendicular d dir = true)
  /\ (forall dir, In dir (filterDirections d) -> dir <> d /\ dir <> opposite d)
  /\ (forall grid p,
        tryDirections grid p d (filterDirections d)
        = Return match find (validStep grid p) (filterDirections d) with
                 | Some dir => Some (move p dir, dir)
                 | None => None
                 end).
Proof.
  intros Hd. split; [|split; [|split]].
  - simpl in Hd. destruct Hd as [<-|[<-|[<-|[<-|[]]]]]; reflexivity.
  - intros dir. rewrite (filterDirections_cardinal d Hd).
    unfold perpendicularCandidates. rewrite filter_In. tauto.
  - intros dir H. rewrite (filterDirections_cardinal d Hd) in H.
    destruct (turn_or_straight_not_reverse d dir Hd (or_intror H)) as [H1 _].
    split; [|exact H1]. intros ->.
    apply filter_In in H as [_ H]. simpl in Hd.
    destruct Hd as [<-|[<-|[<-|[<-|[]]]]]; discriminate.
  - intros grid p. rewrite tryDirections_spec. f_equal.
    rewrite (filterDirections_cardinal d Hd).
    assert (E : forall l, incl l (perpendicularCandidates d) ->
                find (fun dir => negb (isReverse d dir) && validStep grid p dir) l
                = find (validStep grid p) l).
    { induction l as [|x l IH]; intros I; [reflexivity|]. simpl.
      rewrite (perpendicular_not_reverse d x Hd) by (apply I; now left). simpl.
      destruct (validStep grid p x); [reflexivity|].
      apply IH. intros y Hy. apply I. now right. }
    rewrite E; [reflexivity | apply incl_refl].
Qed.

Lemma filterDirections_perpendicular_witness :
  List.length (filterDirections (mkPosition 0 1)) = 2%nat.
Proof.
  refine (proj1 (filterDirections_perpendicular (mkPosition 0 1) _)).
  simpl. tauto.
Defined.

(** ** The resolver, case by case *)

(** X5: away from a [+] cell the resolver keeps its direction whenever the
    forward cell is in bounds and walkable, whatever lies to the sides (so
    crossings and letters are passed straight through); and on a cell that
    is neither [+] nor a letter a forward cell that is missing or not
    walkable always gives [null]: a plain segment never turns. *)
Theorem straight_ahead_first grid p d c :
  cell grid p = Some c -> c <> CHANGE_DIRECTION_CHAR ->
  (validStep grid p d = true ->
   findNextPosition grid p d = Return (Some (move p d, d)))
  /\ (testUpper c = false -> validStep grid p d = false ->
      findNextPosition grid p d = Return None).
Proof.
  intros C N. rewrite (findNextPosition_spec _ _ _ _ C).
  destruct (String.eqb_spec c CHANGE_DIRECTION_CHAR) as [E|_]; [contradiction|].
  unfold validStep, walkableAt.
  destruct (cell grid (move p d)) as [c'|]; split.
  - intros W. now rewrite W.
  - intros _ W. now rewrite W.
  - discriminate.
  - intros U _. now rewrite U.
Qed.

Lemma straight_ahead_first_witness :
  findNextPosition Maps.doNotCollectLetterFromSameLocationTwiceMap
                   (mkPosition 3 4) (mkPosition 0 1)
  = Return (Some (mkPosition 3 5, mkPosition 0 1)).
Proof.
  refine (proj1 (straight_ahead_first
            Maps.doNotCollectLetterFromSameLocationTwiceMap
            (mkPosition 3 4) (mkPosition 0 1) "O" _ _) _).
  - reflexivity.
  - discriminate.
  - reflexivity.
Defined.

(** X6: at a [+] cell with exactly one perpendicular direction leading to
    an in-bounds walkable cell, [haveOneValidDirection] returns [true] and
    the resolver moves one step in that direction, which becomes the new
    direction. *)
Theorem turn_takes_the_only_direction grid p d dir :
  In d DIRECTIONS -> cell grid p = Some CHANGE_DIRECTION_CHAR ->
  filter (validStep grid p) (perpendicularCandidates d) = [dir] ->
  haveOneValidDirection grid p d = Return true
  /\ findNextPosition grid p d = Return (Some (move p dir, dir)).
Proof.
  intros Hd C F.
  rewrite (haveOneValidDirection_spec _ _ _ _ C), (findNextPosition_spec _ _ _ _ C).
  rewrite String.eqb_refl. simpl negb. cbv iota.
  rewrite tryDirections_spec, (filterDirections_cardinal d Hd), F. simpl.
  split; [reflexivity|]. f_equal.
  assert (E : forall l, incl l (perpendicularCandidates d) ->
              filter (validStep grid p) l = [dir] ->
              find (fun x => negb (isReverse d x) && validStep grid p x) l
              = Some dir).
  { induction l as [|x l IH]; intros I; simpl; [discriminate|].
    rewrite (perpendicular_not_reverse d x Hd) by (apply I; now left). simpl.
    destruct (validStep grid p x).
    - now intros [= -> _].
    - apply IH. intros y Hy. apply I. now right. }
  rewrite (E _ (incl_refl _) F). reflexivity.
Qed.

Lemma turn_takes_the_only_direction_witness :
  findNextPosition Maps.basicExampleMap (mkPosition 0 8) (mkPosition 0 1)
  = Return (Some (mkPosition 1 8, mkPosition 1 0)).
Proof.
  refine (proj2 (turn_takes_the_only_direction Maps.basicExampleMap
            (mkPosition 0 8) (mkPosition 0 1) (mkPosition 1 0) _ _ _)).
  - simpl. tauto.
  - reflexivity.
  - reflexivity.
Defined.

(** X7: the resolver throws only at a [+] cell, only the
    one-valid-direction error, and only when more than one of the filtered
    directions is valid; on every other cell an ambiguity is never
    reported: the resolver returns a step or [null]. *)
Theorem resolver_throws_only_at_turns grid p d e :
  findNextPosition grid p d = Throw e ->
  e = OneDirectionError
  /\ cell grid p = Some CHANGE_DIRECTION_CHAR
  /\ (1 < List.length (filter (validStep grid p) (filterDirections d)))%nat.
Proof.
  intros H. split; [now apply findNextPosition_throw in H|].
  destruct (cell grid p) as [c|] eqn:C;
    [|unfold findNextPosition, readCell in H; rewrite C in H; discriminate].
  rewrite (findNextPosition_spec _ _ _ _ C) in H.
  destruct (String.eqb_spec c CHANGE_DIRECTION_CHAR) as [E|N].
  - split; [now rewrite E|].
    destruct (Nat.ltb_spec 1 (List.length (filter (validStep grid p)
                                                  (filterDirections d))));
      [assumption|].
    now apply tryDirections_no_throw in H.
  - exfalso. destruct (cell grid (move p d)) as [c'|].
    + destruct (isWalkable c'); discriminate.
    + destruct (testUpper c); [|discriminate].
      now apply tryDirections_no_throw in H.
Qed.

Lemma resolver_throws_only_at_turns_witness :
  cell Maps.forkInPathMap (mkPosition 2 8) = Some CHANGE_DIRECTION_CHAR.
Proof.
  refine (proj1 (proj2 (resolver_throws_only_at_turns Maps.forkInPathMap
            (mkPosition 2 8) (mkPosition 0 1) OneDirectionError _))).
  reflexivity.
Defined.

(** ** The whole call *)

Lemma findInitialDirection_spec_never_null grid start :
  findInitialDirection grid start = Return None -> False.
Proof.
  rewrite findInitialDirection_spec.
  destruct (filter (validStep grid start) DIRECTIONS) as [|d1 [|d2 l]];
    discriminate.
Qed.

(** Of its five errors the code can throw four. *)
Lemma collect_thrown_errors fuel grid e :
  collectLettersAndPath fuel grid = Some (Throw e) ->
  e <> InvalidStartError
  /\ (e = StartEndError \/ e = StartingPathError
      \/ e = OneDirectionError \/ e = BrokenPathError)
  /\ (e <> StartEndError ->
      occurrences grid STARTING_CHAR = 1%nat
      /\ occurrences grid ENDING_CHAR <> 0%nat).
Proof.
  intros H.
  assert (Passed : e <> StartEndError ->
                   occurrences grid STARTING_CHAR = 1%nat
                   /\ occurrences grid ENDING_CHAR <> 0%nat).
  { intros N.
    destruct (Nat.eq_dec (occurrences grid STARTING_CHAR) 1) as [Hs|Hs].
    - split; [exact Hs|]. intros He.
      rewrite (start_end_rejected grid (or_intror He) fuel) in H. congruence.
    - rewrite (start_end_rejected grid (or_introl Hs) fuel) in H. congruence. }
  assert (Kinds : e = StartEndError \/ e = StartingPathError
                  \/ e = OneDirectionError \/ e = BrokenPathError).
  { unfold collectLettersAndPath in H.
    destruct (findPosition grid STARTING_CHAR) as [start|]; [|left; congruence].
    destruct (findPosition grid ENDING_CHAR) as [endPos|]; [|left; congruence].
    destruct (hasMultipleOccurrences grid STARTING_CHAR); [left; congruence|].
    destruct (findInitialDirection grid start) as [[dir|]| |] eqn:Ei;
      try discriminate.
    - apply walkLoop_throw in H. tauto.
    - apply findInitialDirection_spec_never_null in Ei. contradiction.
    - injection H as <-. apply findInitialDirection_throw in Ei. tauto. }
  split; [|split; [exact Kinds | exact Passed]].
  destruct Kinds as [E|[E|[E|E]]]; rewrite E; discriminate.
Qed.

(** X8: a call ends in one of three ways: the engine's [RangeError] from
    [push] on a full array, a result, or one of the code's errors.  Of
    these the code throws only the start/end, starting-path,
    one-valid-direction and broken-path errors; "Invalid starting position
    or map." is never thrown, because [findInitialDirection] returns a
    direction or throws.  The last three are thrown only on grids that pass
    the start/end check. *)
Theorem thrown_errors capacity fuel grid ending :
  collectLettersAndPathWithin capacity fuel grid = Some ending ->
  ending = RangeError
  \/ (exists r, ending = Ends (Return r))
  \/ (exists e,
        ending = Ends (Throw e)
        /\ e <> InvalidStartError
        /\ (e = StartEndError \/ e = StartingPathError
            \/ e = OneDirectionError \/ e = BrokenPathError)
        /\ (e <> StartEndError ->
            occurrences grid STARTING_CHAR = 1%nat
            /\ occurrences grid ENDING_CHAR <> 0%nat)).
Proof.
  intros H. destruct ending as [o|]; [|now left]. right.
  apply collectWithin_code_outcome in H. destruct o as [r|e|].
  - left. eauto.
  - right. exists e. split; [reflexivity|]. now apply (collect_thrown_errors fuel).
  - now apply collect_no_absent in H.
Qed.

Lemma thrown_errors_witness :
  Ends (Throw BrokenPathError) = RangeError
  \/ (exists r, Ends (Throw BrokenPathError) = Ends (Return r))
  \/ (exists e,
        Ends (Throw BrokenPathError) = Ends (Throw e)
        /\ e <> InvalidStartError
        /\ (e = StartEndError \/ e = StartingPathError
            \/ e = OneDirectionError \/ e = BrokenPathError)
        /\ (e <> StartEndError ->
            occurrences Maps.fakeTurnMap STARTING_CHAR = 1%nat
            /\ occurrences Maps.fakeTurnMap ENDING_CHAR <> 0%nat)).
Proof.
  apply (thrown_errors 100 9 Maps.fakeTurnMap (Ends (Throw BrokenPathError))).
  vm_compute. reflexivity.
Defined.

(** X9: a call that returns a result was given a grid with exactly one
    start marker, at least one end marker, and exactly one direction out of
    the start cell that leads to an in-bounds walkable cell. *)
Theorem result_needs_valid_map fuel grid r :
  collectLettersAndPath fuel grid = Some (Return r) ->
  occurrences grid STARTING_CHAR = 1%nat
  /\ (1 <= occurrences grid ENDING_CHAR)%nat
  /\ exists start d,
       findPosition grid STARTING_CHAR = Some start
       /\ filter (validStep grid start) DIRECTIONS = [d].
Proof.
  unfold collectLettersAndPath.
  destruct (findPosition grid STARTING_CHAR) as [start|] eqn:Es; [|discriminate].
  destruct (findPosition grid ENDING_CHAR) as [endPos|] eqn:Ee; [|discriminate].
  destruct (hasMultipleOccurrences grid STARTING_CHAR) eqn:Em; [discriminate|].
  rewrite findInitialDirection_spec.
  destruct (filter (validStep grid start) DIRECTIONS) as [|d [|d2 l]] eqn:Ef;
    try discriminate.
  intros _.
  assert (Hs : occurrences grid STARTING_CHAR <> 0%nat)
    by (intros Z0; apply findPosition_None in Z0; congruence).
  assert (He : occurrences grid ENDING_CHAR <> 0%nat)
    by (intros Z0; apply findPosition_None in Z0; congruence).
  assert (Hm : ~ (2 <= occurrences grid STARTING_CHAR)%nat)
    by (intros Z0; apply hasMultipleOccurrences_spec in Z0; congruence).
  split; [lia|]. split; [lia|]. exists start, d. auto.
Qed.

Lemma result_needs_valid_map_witness :
  occurrences Maps.basicExampleMap STARTING_CHAR = 1%nat.
Proof.
  refine (proj1 (result_needs_valid_map 40 Maps.basicExampleMap
            (mkResult "ACB" "@---A---+|C|+---+|+-B-x") _)).
  vm_compute. reflexivity.
Defined.

Lemma occurrences_le_cellCount grid char :
  (occurrences grid char <= cellCount grid)%nat.
Proof. unfold occurrences, cellCount. apply filter_length_le. Qed.

(** X10: a grid without any cell (no rows, or only empty rows) is rejected
    with the start/end error. *)
Theorem empty_grid_rejected grid fuel :
  cellCount grid = 0%nat ->
  collectLettersAndPath fuel grid = Some (Throw StartEndError).
Proof.
  intros H. apply start_end_rejected. right.
  pose proof (occurrences_le_cellCount grid ENDING_CHAR). lia.
Qed.

Lemma empty_grid_rejected_witness :
  collectLettersAndPath 5 [[]; []] = Some (Throw StartEndError).
Proof. apply (empty_grid_rejected [[]; []] 5). reflexivity. Defined.

(** ** The states of a walk *)

Lemma visited_stops_at_end fuel grid endPos p d pathAcc lettersAcc location r :
  walkLoop fuel grid endPos p d pathAcc lettersAcc location = Some (Return r) ->
  exists tr', map fst (visited fuel grid endPos p d) = tr' ++ [endPos]
              /\ ~ In endPos tr'.
Proof.
  revert p d pathAcc lettersAcc location.
  induction fuel as [|fuel IH]; intros p d pathAcc lettersAcc location; simpl;
    [discriminate|].
  destruct (readCell grid p) as [c| |]; try discriminate.
  destruct (samePosition p endPos) eqn:S.
  - intros _. apply samePosition_true in S. subst. exists []. auto.
  - destruct (findNextPosition grid p d) as [[[np nd]|]| |]; try discriminate.
    intros H. apply IH in H as (tr' & E & N). exists (p :: tr'). simpl.
    rewrite E. split; [reflexivity|]. intros [<-|I]; [|contradiction].
    assert (T : samePosition p p = true) by now apply samePosition_true.
    congruence.
Qed.

(** X11: a successful walk stops at the end position, which is the first
    end marker in the scan order of [findPosition], the first time it
    stands on it: that position is the last one visited and none of the
    earlier ones. *)
Theorem walk_stops_at_first_end fuel grid r :
  collectLettersAndPath fuel grid = Some (Return r) ->
  exists endPos tr',
    findPosition grid ENDING_CHAR = Some endPos
    /\ visitedPositions fuel grid = tr' ++ [endPos]
    /\ ~ In endPos tr'.
Proof.
  intros H.
  destruct (collect_success _ _ _ H) as (start & endPos & dir & Ee & Ev & Hw).
  apply visited_stops_at_end in Hw as (tr' & E & N).
  exists endPos, tr'. unfold visitedPositions. rewrite Ev. auto.
Qed.

Lemma walk_stops_at_first_end_witness :
  exists endPos tr',
    findPosition Maps.basicExampleMap ENDING_CHAR = Some endPos
    /\ visitedPositions 40 Maps.basicExampleMap = tr' ++ [endPos]
    /\ ~ In endPos tr'.
Proof.
  apply (walk_stops_at_first_end 40 Maps.basicExampleMap
           (mkResult "ACB" "@---A---+|C|+---+|+-B-x")).
  vm_compute. reflexivity.
Defined.

(** X12: the walk only ever stands on cells that pass the walkable test: a
    visited cell is never the start marker, a blank or a space. *)
Theorem visited_cells_are_walkable fuel grid p :
  In p (visitedPositions fuel grid) ->
  isWalkable (cellAt grid p) = true
  /\ cellAt grid p <> STARTING_CHAR
  /\ cellAt grid p <> blank
  /\ cellAt grid p <> " "%string.
Proof.
  intros H. unfold visitedPositions in H. apply in_map_iff in H as (s & <- & Hs).
  pose proof (visitedStates_invariant fuel grid) as F.
  rewrite Forall_forall in F. apply F in Hs as [W _].
  unfold walkableAt in W. unfold cellAt.
  destruct (cell grid (fst s)) as [c|]; [|discriminate].
  split; [exact W|]. repeat split; intros ->; vm_compute in W; discriminate.
Qed.

Lemma visited_cells_are_walkable_witness :
  cellAt Maps.basicExampleMap (mkPosition 0 4) <> STARTING_CHAR.
Proof.
  refine (proj1 (proj2 (visited_cells_are_walkable 40 Maps.basicExampleMap
            (mkPosition 0 4) _))).
  vm_compute. tauto.
Defined.

Lemma visitedStates_consecutive fuel grid i s1 s2 :
  nth_error (visitedStates fuel grid) i = Some s1 ->
  nth_error (visitedStates fuel grid) (S i) = Some s2 ->
  findNextPosition grid (fst s1) (snd s1) = Return (Some s2).
Proof.
  unfold visitedStates.
  destruct (findPosition grid STARTING_CHAR) as [start|];
    [|destruct i; discriminate].
  destruct (findPosition grid ENDING_CHAR) as [endPos|];
    [|destruct i; discriminate].
  destruct (hasMultipleOccurrences grid STARTING_CHAR);
    [destruct i; discriminate|].
  destruct (findInitialDirection grid start) as [[d|]| |];
    try (destruct i; discriminate).
  apply visited_consecutive.
Qed.

(** X13: each step of the walk moves to one of the four neighbouring
    cells: the next position is the current one moved by the new direction,
    so it differs by exactly one in the row or in the column, never both
    (no diagonal move, no jump, no standing still). *)
Theorem steps_are_unit_moves fuel grid i s1 s2 :
  nth_error (visitedStates fuel grid) i = Some s1 ->
  nth_error (visitedStates fuel grid) (S i) = Some s2 ->
  fst s2 = move (fst s1) (snd s2)
  /\ In (snd s2) DIRECTIONS
  /\ Z.abs (row (fst s2) - row (fst s1)) + Z.abs (col (fst s2) - col (fst s1)) = 1.
Proof.
  intros H1 H2.
  assert (D : In (snd s1) DIRECTIONS).
  { pose proof (visitedStates_invariant fuel grid) as F.
    rewrite Forall_forall in F. apply nth_error_In in H1. now apply F in H1. }
  pose proof (visitedStates_consecutive _ _ _ _ _ H1 H2) as F.
  destruct s2 as [np nd]. apply findNextPosition_step in F as (M & _ & D' & _); auto.
  simpl. split; [exact M|]. split; [exact D'|]. subst np. simpl in D'.
  destruct D' as [<-|[<-|[<-|[<-|[]]]]]; simpl; lia.
Qed.

Lemma steps_are_unit_moves_witness :
  mkPosition 1 8 = move (mkPosition 0 8) (mkPosition 1 0).
Proof.
  refine (proj1 (steps_are_unit_moves 40 Maps.basicExampleMap 7
            (mkPosition 0 8, mkPosition 0 1) (mkPosition 1 8, mkPosition 1 0)
            _ _)).
  - vm_compute. reflexivity.
  - vm_compute. reflexivity.
Defined.

Lemma findNextPosition_reads_cell grid p d x :
  findNextPosition grid p d = Return x -> exists c, readCell grid p = Return c.
Proof.
  unfold findNextPosition.
  destruct (readCell grid p) as [c| |]; simpl; [eauto | discriminate..].
Qed.

Lemma visited_iterate fuel grid endPos p d i s :
  nth_error (visited fuel grid endPos p d) i = Some s ->
  iterate i grid endPos (p, d) = Some s.
Proof.
  revert p d i. induction fuel as [|fuel IH]; intros p d i; simpl.
  - destruct i; discriminate.
  - destruct i as [|i]; simpl; [intros [= <-]; reflexivity|].
    unfold advance. simpl.
    destruct (samePosition p endPos); [destruct i; discriminate|].
    destruct (findNextPosition grid p d) as [[[np nd]|]| |] eqn:F;
      try (destruct i; discriminate).
    apply findNextPosition_reads_cell in F as R. destruct R as [c R].
    rewrite R. apply IH.
Qed.

Lemma visited_NoDup fuel grid endPos p d pathAcc lettersAcc location o :
  walkLoop fuel grid endPos p d pathAcc lettersAcc location = Some o ->
  NoDup (visited fuel grid endPos p d).
Proof.
  intros H. apply NoDup_nth_error. intros i j Li E.
  destruct (nth_error (visited fuel grid endPos p d) i) as [s|] eqn:Ei;
    [|apply nth_error_None in Ei; lia].
  symmetry in E. apply visited_iterate in Ei, E.
  destruct (Nat.eq_dec i j) as [|N]; [assumption|]. exfalso.
  assert (Loop : forall n, exists t, iterate n grid endPos (p, d) = Some t).
  { destruct (Nat.lt_ge_cases i j) as [L|L].
    - apply (iterate_eventually_cyclic i (j - i) _ _ _ s); [lia | exact Ei |].
      now replace (i + (j - i))%nat with j by lia.
    - apply (iterate_eventually_cyclic j (i - j) _ _ _ s); [lia | exact E |].
      now replace (j + (i - j))%nat with i by lia. }
  specialize (Loop fuel).
  apply (walkLoop_out_of_fuel fuel grid endPos p d pathAcc lettersAcc location)
    in Loop.
  congruence.
Qed.

(** A loop that is left never went through the same state twice. *)
Lemma collect_ended_never_repeats fuel grid o :
  collectLettersAndPath fuel grid = Some o ->
  NoDup (visitedStates fuel grid)
  /\ (List.length (visitedStates fuel grid) <= 4 * cellCount grid)%nat.
Proof.
  intros H.
  assert (ND : NoDup (visitedStates fuel grid)).
  { unfold collectLettersAndPath in H. unfold visitedStates.
    destruct (findPosition grid STARTING_CHAR) as [start|]; [|constructor].
    destruct (findPosition grid ENDING_CHAR) as [endPos|]; [|constructor].
    destruct (hasMultipleOccurrences grid STARTING_CHAR); [constructor|].
    destruct (findInitialDirection grid start) as [[dir|]| |]; try constructor.
    eapply visited_NoDup. exact H. }
  split; [exact ND|].
  apply NoDup_incl_length with (l' := allStates grid) in ND.
  - rewrite allStates_length in ND. unfold State in *. lia.
  - intros s Hs. pose proof (visitedStates_invariant fuel grid) as F.
    rewrite Forall_forall in F. apply F in Hs as [W D].
    destruct s. now apply allStates_In.
Qed.

(** X14: a call that the code itself ends, with a result or with one of
    its errors (not the engine with [RangeError] on a full array), never
    went through the same cell in the same direction twice; so it ran the
    loop body at most four times the number of cells. *)
Theorem ended_walk_never_repeats_a_state capacity fuel grid o :
  collectLettersAndPathWithin capacity fuel grid = Some (Ends o) ->
  NoDup (visitedStates fuel grid)
  /\ (List.length (visitedStates fuel grid) <= 4 * cellCount grid)%nat.
Proof.
  intros H. apply collectWithin_code_outcome in H.
  now apply (collect_ended_never_repeats fuel grid o).
Qed.

Lemma ended_walk_never_repeats_a_state_witness :
  (List.length (visitedStates 60 Maps.doNotCollectLetterFromSameLocationTwiceMap)
   <= 4 * cellCount Maps.doNotCollectLetterFromSameLocationTwiceMap)%nat.
Proof.
  refine (proj2 (ended_walk_never_repeats_a_state 100 60
            Maps.doNotCollectLetterFromSameLocationTwiceMap
            (Return (mkResult "GOONIES" "@-G-O-+|+-+|O||+-O-N-+|I|+-+|+-I-+|ES|x"))
            _)).
  vm_compute. reflexivity.
Defined.

(** ** The collected letters *)

Lemma everyChar_append cls a b :
  everyChar cls (a ++ b) = everyChar cls a && everyChar cls b.
Proof. induction a as [|x a IH]; simpl; [reflexivity|]. now rewrite IH, andb_assoc. Qed.

Lemma everyChar_join cls l :
  Forall (fun s => everyChar cls s = true) l -> everyChar cls (join l) = true.
Proof.
  induction 1 as [|x l Hx _ IH]; [reflexivity|].
  now rewrite join_cons, everyChar_append, Hx, IH.
Qed.

Lemma single_letter_is_upper s :
  String.length s = 1%nat -> testUpper s = true -> everyChar upperClass s = true.
Proof.
  destruct s as [|a [|b s]]; try discriminate. intros _.
  unfold testUpper. simpl. now rewrite orb_false_r, andb_true_r.
Qed.

(** X15: the letters of a result are the cells of visited positions that
    pass the test [/[A-Z]/]; on a grid of single characters the letters
    string consists of uppercase letters A to Z only (never a path
    character or a marker), and it is no longer than the number of
    positions visited. *)
Theorem letters_are_uppercase fuel grid r :
  collectLettersAndPath fuel grid = Some (Return r) ->
  (exists positions,
      letters r = join (map (cellAt grid) positions)
      /\ NoDup positions
      /\ Forall (fun p => In p (visitedPositions fuel grid)
                          /\ testUpper (cellAt grid p) = true) positions)
  /\ (singleCharCells grid ->
      everyChar upperClass (letters r) = true
      /\ (String.length (letters r) <= List.length (visitedPositions fuel grid))%nat).
Proof.
  intros H.
  destruct (collect_success _ _ _ H) as (start & endPos & dir & _ & Ev & Hw).
  apply walkLoop_trace in Hw as (_ & Hl & _). rewrite <- Ev in Hl.
  fold (visitedPositions fuel grid) in Hl. simpl in Hl.
  set (positions := firstVisitsFrom [] (filter (isLetterAt grid)
                                               (visitedPositions fuel grid))) in *.
  assert (Hin : Forall (fun p => In p (visitedPositions fuel grid)
                                 /\ testUpper (cellAt grid p) = true) positions).
  { apply Forall_forall. intros p Hp. apply firstVisitsFrom_In in Hp as [Hp _].
    apply filter_In in Hp. exact Hp. }
  assert (ND : NoDup positions) by apply firstVisitsFrom_NoDup.
  split; [exists positions; auto|].
  intros S.
  assert (One : Forall (fun s => String.length s = 1%nat)
                       (map (cellAt grid) positions)).
  { apply Forall_map. rewrite Forall_forall in *. intros p Hp.
    apply Hin in Hp as [Hp _]. apply walkable_single_char; [exact S|].
    unfold visitedPositions in Hp. apply in_map_iff in Hp as (s & <- & Hs).
    pose proof (visitedStates_invariant fuel grid) as F.
    rewrite Forall_forall in F. now apply F in Hs. }
  split.
  - rewrite Hl. apply everyChar_join. apply Forall_map.
    rewrite Forall_map in One. rewrite Forall_forall in *. intros p Hp.
    apply single_letter_is_upper; [now apply One | now apply Hin].
  - rewrite Hl, (join_single_chars _ One), length_map.
    apply NoDup_incl_length; [exact ND|].
    intros p Hp. rewrite Forall_forall in Hin. now apply Hin in Hp.
Qed.

Lemma letters_are_uppercase_witness :
  everyChar upperClass "ACB" = true.
Proof.
  refine (proj1 (proj2 (letters_are_uppercase 40 Maps.basicExampleMap
            (mkResult "ACB" "@---A---+|C|+---+|+-B-x") _) _)).
  - vm_compute. reflexivity.
  - repeat constructor.
Defined.

(** ** [isLocationAlreadyUsed] *)

(** X16: [isLocationAlreadyUsed] is membership by value: it answers [true]
    exactly when a position with the same row and column is in the list, so
    a position is found right after it is pushed, pushing one position does
    not change the answer for another, and nothing is found in the empty
    list. *)
Theorem isLocationAlreadyUsed_membership location p q :
  (isLocationAlreadyUsed location p = true <-> In p location)
  /\ isLocationAlreadyUsed (location ++ [p]) p = true
  /\ (q <> p ->
      isLocationAlreadyUsed (location ++ [p]) q = isLocationAlreadyUsed location q)
  /\ isLocationAlreadyUsed [] p = false.
Proof.
  split; [apply isLocationAlreadyUsed_In|]. split; [|split; [|reflexivity]].
  - apply isLocationAlreadyUsed_In, in_or_app. right. now left.
  - intros N.
    destruct (isLocationAlreadyUsed location q) eqn:U.
    + apply isLocationAlreadyUsed_In. apply isLocationAlreadyUsed_In in U.
      apply in_or_app. now left.
    + destruct (isLocationAlreadyUsed (location ++ [p]) q) eqn:U'; [|reflexivity].
      apply isLocationAlreadyUsed_In, in_app_or in U'.
      destruct U' as [I|[E|[]]].
      * apply isLocationAlreadyUsed_In in I. congruence.
      * congruence.
Qed.

Lemma isLocationAlreadyUsed_membership_witness :
  isLocationAlreadyUsed ([mkPosition 3 4] ++ [mkPosition 0 6]) (mkPosition 3 4)
  = isLocationAlreadyUsed [mkPosition 3 4] (mkPosition 3 4).
Proof.
  refine (proj1 (proj2 (proj2 (isLocationAlreadyUsed_membership
            [mkPosition 3 4] (mkPosition 0 6) (mkPosition 3 4)))) _).
  discriminate.
Defined.

(** ** Termination with the array limit of the engine (C2) *)



Example within_limit_basic_example :
  collectLettersAndPathWithin 23 40 Maps.basicExampleMap
  = Some (Ends (Return (mkResult "ACB" "@---A---+|C|+---+|+-B-x"))).
Proof. vm_compute. reflexivity. Qed.

Example beyond_limit_basic_example :
  collectLettersAndPathWithin 22 40 Maps.basicExampleMap = Some RangeError.
Proof. vm_compute. reflexivity. Qed.

Example loopMap_array_full_at_50 :
  collectLettersAndPathWithin 50 49 loopMap = None
  /\ collectLettersAndPathWithin 50 50 loopMap = Some RangeError.
Proof. vm_compute. split; reflexivity. Qed.

Lemma loopMap_array_full capacity fuel :
  (capacity < fuel)%nat ->
  collectLettersAndPathWithin capacity fuel loopMap = Some RangeError.
Proof.
  intros L. destruct (collectWithin_ends capacity fuel loopMap L) as [[o|] E];
    [|exact E].
  apply collectWithin_code_outcome in E.
  rewrite loopMap_never_returns in E. discriminate.
Qed.



